(** * gogeos: the GEOS service facade of [geos/geos.go]

    A shallow embedding of the Go package [geos]: the [Service] that owns the
    GEOS context, the [Geometry] wrappers around native handles, the GeoJSON to
    WKT conversion, and every public operation of the service.

    - Go heap objects ([*Service], [*Geometry]) live in two typed stores
      indexed by address, so that pointer identity and aliasing are visible.
    - The GEOS C library is a black box: every call into it is appended to a
      log, and its answers come from an [Engine] oracle that may depend on the
      whole history of earlier calls.
    - A method is a computation in a small state monad whose result is either
      the Go return values or a run-time panic (nil dereference).
    - The embedding is sequential: [sync.RWMutex] operations are not
      represented, each method body runs without interleaving. *)

From Stdlib Require Import ZArith Floats DecimalString.
From stdpp Require Import base option list strings gmap.

#[local] Set Warnings "-register-all".
Local Open Scope Z_scope.

(** ** Go values *)

(** [float64] is IEEE 754 binary64. *)
Abbreviation float64 := float.

(** The dynamic values an [interface{}] of a GeoJSON description can hold.
    [VSlice] is [[]interface{}]; [VFloat64Slice] is the statically typed
    [[]float64], a different dynamic type that no [.([]interface{})] assertion
    accepts. *)
Inductive any : Type :=
  | VNil
  | VBool (b : bool)
  | VFloat64 (x : float64)
  | VInt (n : Z)
  | VString (s : string)
  | VSlice (elems : list any)
  | VFloat64Slice (elems : list float64)
  | VMap (fields : list (string * any)).

(** Type assertions [v.(string)], [v.(float64)], [v.([]interface{})] in their
    comma-ok form. *)
Definition assert_string (v : option any) : option string :=
  match v with Some (VString s) => Some s | _ => None end.

Definition assert_float64 (v : option any) : option float64 :=
  match v with Some (VFloat64 x) => Some x | _ => None end.

Definition assert_slice (v : any) : option (list any) :=
  match v with VSlice l => Some l | _ => None end.

(** ** [fmt.Sprintf("%f", x)]

    The verb [%f] prints a [float64] in fixed notation with six fractional
    digits, rounding the exact binary value to nearest, ties to even. *)

Definition show_N (n : N) : string := NilZero.string_of_uint (N.to_uint n).

Definition micro : Z := 1000000.

(** [round_half_even num den] is the integer nearest to [num / den]. *)
Definition round_half_even (num den : Z) : Z :=
  let q := num / den in
  let r := num mod den in
  if (den <? 2 * r) || ((den =? 2 * r) && Z.odd q) then q + 1 else q.

(** The magnitude [m * 2^e] in millionths, rounded. *)
Definition scaled_micro (m : positive) (e : Z) : Z :=
  if 0 <=? e then Z.pos m * 2 ^ e * micro
  else round_half_even (Z.pos m * micro) (2 ^ (- e)).

Definition drop_first (s : string) : string :=
  match s with String _ rest => rest | EmptyString => EmptyString end.

Definition show_fixed6 (q : Z) : string :=
  show_N (Z.to_N (q / micro)) +:+ "." +:+
  drop_first (show_N (Z.to_N (micro + q mod micro))).

Definition show_sign (negative : bool) : string :=
  if negative then "-" else "".

Definition fmt_f (x : float64) : string :=
  match Prim2SF x with
  | S754_nan => "NaN"
  | S754_infinity negative => if negative then "-Inf" else "+Inf"
  | S754_zero negative => show_sign negative +:+ show_fixed6 0
  | S754_finite negative m e => show_sign negative +:+ show_fixed6 (scaled_micro m e)
  end.

(** ** Errors

    Go errors are built with [errors.New] and [fmt.Errorf]; an error is its
    message. *)
Abbreviation error := string.

Definition ErrNotInitialized : error := "GEOS context is not initialized".
Definition ErrInvalidGeometry : error := "invalid geometry".
Definition ErrNoGeometries : error := "no geometries provided".
Definition ErrNoGeometry : error :=
  "no geometry provided: either WKT or GeoJSON is required".
Definition ErrEmptyWKT : error := "empty WKT string".
Definition ErrInvalidPoint : error := "invalid Point coordinates".
Definition ErrInvalidPolygon : error := "invalid Polygon coordinates".
Definition ErrInvalidLineString : error := "invalid LineString coordinates".

(** ** GeoJSON to WKT *)

(** One iteration of the coordinate loops of [geoJSONToWKT]: the body of
    [for i, coord := range ring], returning the new value of [wkt]. *)
Definition append_coord (wkt : string) (i : nat) (coord : any) : string :=
  match assert_slice coord with
  | Some coordArray =>
      if bool_decide (2 ≤ length coordArray)%nat then
        match assert_float64 (coordArray !! 0%nat),
              assert_float64 (coordArray !! 1%nat) with
        | Some x, Some y =>
            let wkt := if bool_decide (0 < i)%nat then wkt +:+ ", " else wkt in
            wkt +:+ (fmt_f x +:+ " " +:+ fmt_f y)
        | _, _ => wkt
        end
      else wkt
  | None => wkt
  end.

(** The whole loop, started at index [i] with [wkt] accumulated so far. *)
Fixpoint coords_loop (wkt : string) (i : nat) (ring : list any) : string :=
  match ring with
  | [] => wkt
  | coord :: rest => coords_loop (append_coord wkt i coord) (S i) rest
  end.

(** [func (s *Service) geoJSONToWKT(geoType string, coords interface{}) (string, error)].
    The receiver is not used. *)
Definition geoJSONToWKT (geoType : string) (coords : any) : string * option error :=
  if bool_decide (geoType = "Point") then
    match assert_slice coords with
    | Some coordArray =>
        if bool_decide (2 ≤ length coordArray)%nat then
          match assert_float64 (coordArray !! 0%nat),
                assert_float64 (coordArray !! 1%nat) with
          | Some x, Some y =>
              ("POINT(" +:+ fmt_f x +:+ " " +:+ fmt_f y +:+ ")", None)
          | _, _ => ("", Some ErrInvalidPoint)
          end
        else ("", Some ErrInvalidPoint)
    | None => ("", Some ErrInvalidPoint)
    end
  else if bool_decide (geoType = "Polygon") then
    match assert_slice coords with
    | Some rings =>
        if bool_decide (0 < length rings)%nat then
          match rings !! 0%nat ≫= assert_slice with
          | Some ring =>
              if bool_decide (4 ≤ length ring)%nat then
                (coords_loop "POLYGON((" 0 ring +:+ "))", None)
              else ("", Some ErrInvalidPolygon)
          | None => ("", Some ErrInvalidPolygon)
          end
        else ("", Some ErrInvalidPolygon)
    | None => ("", Some ErrInvalidPolygon)
    end
  else if bool_decide (geoType = "LineString") then
    match assert_slice coords with
    | Some coords =>
        if bool_decide (2 ≤ length coords)%nat then
          (coords_loop "LINESTRING(" 0 coords +:+ ")", None)
        else ("", Some ErrInvalidLineString)
    | None => ("", Some ErrInvalidLineString)
    end
  else ("", Some ("unsupported GeoJSON type: " +:+ geoType)).

(** ** The Go heap and the C side *)

(** Address of a Go heap object; a Go pointer is [option loc], [None] being
    [nil]. *)
Abbreviation loc := nat.

(** A C pointer ([GEOSContextHandle_t], [*C.struct_GEOSGeom_t]); [None] is
    [NULL]. *)
Abbreviation cptr := (option nat).

(** [type Service struct { context; mutex }]. [service_finalizer] records
    whether [runtime.SetFinalizer] currently has a finalizer registered for the
    object. *)
Record Service : Type := mkService {
  context : cptr;
  service_finalizer : bool;
}.

(** [type Geometry struct { geom; service }], with its finalizer flag. *)
Record Geometry : Type := mkGeometry {
  geom : cptr;
  service : option loc;
  geometry_finalizer : bool;
}.

(** [type GeometryInput struct { WKT; GeoJSON; SRID }]. A [nil] map is
    [None]. *)
Record GeometryInput : Type := mkGeometryInput {
  WKT : string;
  GeoJSON : option (gmap string any);
  SRID : Z;
}.

(** Calls into the GEOS C library, with their arguments. *)
Inductive call : Type :=
  | Call_GEOS_init_r
  | Call_GEOS_finish_r (ctx : cptr)
  | Call_GEOSGeomFromWKT_r (ctx : cptr) (wkt : string)
  | Call_GEOSisValid_r (ctx g : cptr)
  | Call_GEOSGeom_destroy_r (ctx g : cptr)
  | Call_GEOSGeomToWKT_r (ctx g : cptr)
  | Call_GEOSWithin_r (ctx a b : cptr)
  | Call_GEOSIntersects_r (ctx a b : cptr)
  | Call_GEOSDistance_r (ctx a b : cptr)
  | Call_GEOSBuffer_r (ctx g : cptr) (width : float64) (quadsegs : Z)
  | Call_GEOSSimplify_r (ctx g : cptr) (tolerance : float64)
  | Call_GEOSUnion_r (ctx a b : cptr)
  | Call_GEOSDifference_r (ctx a b : cptr).

(** What the library answers. Each answer may depend on the calls made so
    far. [GEOSDistance_r] answers its status and the value written through the
    out-parameter. *)
Record Engine : Type := mkEngine {
  GEOS_init_r : list call → cptr;
  GEOSGeomFromWKT_r : list call → cptr → string → cptr;
  GEOSisValid_r : list call → cptr → cptr → Z;
  GEOSGeomToWKT_r : list call → cptr → cptr → option string;
  GEOSWithin_r : list call → cptr → cptr → cptr → Z;
  GEOSIntersects_r : list call → cptr → cptr → cptr → Z;
  GEOSDistance_r : list call → cptr → cptr → cptr → Z * float64;
  GEOSBuffer_r : list call → cptr → cptr → float64 → Z → cptr;
  GEOSSimplify_r : list call → cptr → cptr → float64 → cptr;
  GEOSUnion_r : list call → cptr → cptr → cptr → cptr;
  GEOSDifference_r : list call → cptr → cptr → cptr → cptr;
}.

(** The state a method runs in. [calls] is the log of library calls, oldest
    first. [live] is ghost state: the native geometry handles the library has
    handed out and has not yet been asked to destroy. *)
Record World : Type := mkWorld {
  services : gmap loc Service;
  geometries : gmap loc Geometry;
  calls : list call;
  live : list nat;
}.

(** ** The monad of method bodies *)

Inductive result (A : Type) : Type :=
  | Done (a : A)
  | Panic (msg : string).
Arguments Done {A} a.
Arguments Panic {A} msg.

Definition M (A : Type) : Type := World → result A * World.

Definition ret {A} (a : A) : M A := λ w, (Done a, w).

Definition bind {A B} (m : M A) (k : A → M B) : M B :=
  λ w, match m w with
       | (Done a, w') => k a w'
       | (Panic msg, w') => (Panic msg, w')
       end.

Declare Scope go_scope.
Delimit Scope go_scope with go.
Notation "'let*' x ':=' m 'in' k" := (bind m (λ x, k))
  (at level 10, x pattern, m at level 100, k at level 200) : go_scope.
Local Open Scope go_scope.

Definition nil_dereference : string :=
  "invalid memory address or nil pointer dereference".

(** [*p] for [p *Service] and [p *Geometry]. Addresses handed out by the
    allocator are always in the store. *)
Definition load_service (p : loc) : M Service :=
  λ w, match services w !! p with
       | Some sv => (Done sv, w)
       | None => (Panic nil_dereference, w)
       end.

Definition load_geometry (p : option loc) : M Geometry :=
  λ w, match p ≫= (geometries w !!.) with
       | Some gv => (Done gv, w)
       | None => (Panic nil_dereference, w)
       end.

Definition store_service (p : loc) (sv : Service) : M unit :=
  λ w, (Done (), mkWorld (<[p := sv]> (services w)) (geometries w) (calls w) (live w)).

Definition store_geometry (p : loc) (gv : Geometry) : M unit :=
  λ w, (Done (), mkWorld (services w) (<[p := gv]> (geometries w)) (calls w) (live w)).

(** [&Geometry{...}]: a fresh address. *)
Definition alloc_geometry (gv : Geometry) : M loc :=
  λ w, let p := fresh (dom (geometries w)) in
       (Done p, mkWorld (services w) (<[p := gv]> (geometries w)) (calls w) (live w)).

(** Ghost bookkeeping of native handles. *)
Definition track (h : cptr) (l : list nat) : list nat :=
  match h with Some n => n :: l | None => l end.

Fixpoint untrack1 (n : nat) (l : list nat) : list nat :=
  match l with
  | [] => []
  | m :: l' => if bool_decide (m = n) then l' else m :: untrack1 n l'
  end.

Definition untrack (h : cptr) (l : list nat) : list nat :=
  match h with Some n => untrack1 n l | None => l end.

(** A library call: ask the oracle, log the call, update the ghost state. *)
Definition invoke {A} (c : call) (answer : list call → A)
    (ghost : A → list nat → list nat) : M A :=
  λ w, let a := answer (calls w) in
       (Done a, mkWorld (services w) (geometries w) (calls w ++ [c]) (ghost a (live w))).

Definition same {A} (_ : A) (l : list nat) : list nat := l.

(** ** The service *)

Section Service.

Variable E : Engine.

(** The C functions, as seen from Go. The ghost state follows the handles:
    a call that returns a geometry adds it, [GEOSGeom_destroy_r] removes its
    argument. *)
Definition C_GEOS_init_r : M cptr :=
  invoke Call_GEOS_init_r (GEOS_init_r E) same.
Definition C_GEOS_finish_r (ctx : cptr) : M unit :=
  invoke (Call_GEOS_finish_r ctx) (λ _, ()) same.
Definition C_GEOSGeomFromWKT_r (ctx : cptr) (wkt : string) : M cptr :=
  invoke (Call_GEOSGeomFromWKT_r ctx wkt) (λ h, GEOSGeomFromWKT_r E h ctx wkt) track.
Definition C_GEOSisValid_r (ctx g : cptr) : M Z :=
  invoke (Call_GEOSisValid_r ctx g) (λ h, GEOSisValid_r E h ctx g) same.
Definition C_GEOSGeom_destroy_r (ctx g : cptr) : M unit :=
  invoke (Call_GEOSGeom_destroy_r ctx g) (λ _, ()) (λ _, untrack g).
Definition C_GEOSGeomToWKT_r (ctx g : cptr) : M (option string) :=
  invoke (Call_GEOSGeomToWKT_r ctx g) (λ h, GEOSGeomToWKT_r E h ctx g) same.
Definition C_GEOSWithin_r (ctx a b : cptr) : M Z :=
  invoke (Call_GEOSWithin_r ctx a b) (λ h, GEOSWithin_r E h ctx a b) same.
Definition C_GEOSIntersects_r (ctx a b : cptr) : M Z :=
  invoke (Call_GEOSIntersects_r ctx a b) (λ h, GEOSIntersects_r E h ctx a b) same.
Definition C_GEOSDistance_r (ctx a b : cptr) : M (Z * float64) :=
  invoke (Call_GEOSDistance_r ctx a b) (λ h, GEOSDistance_r E h ctx a b) same.
Definition C_GEOSBuffer_r (ctx g : cptr) (width : float64) (quadsegs : Z) : M cptr :=
  invoke (Call_GEOSBuffer_r ctx g width quadsegs)
         (λ h, GEOSBuffer_r E h ctx g width quadsegs) track.
Definition C_GEOSSimplify_r (ctx g : cptr) (tolerance : float64) : M cptr :=
  invoke (Call_GEOSSimplify_r ctx g tolerance)
         (λ h, GEOSSimplify_r E h ctx g tolerance) track.
Definition C_GEOSUnion_r (ctx a b : cptr) : M cptr :=
  invoke (Call_GEOSUnion_r ctx a b) (λ h, GEOSUnion_r E h ctx a b) track.
Definition C_GEOSDifference_r (ctx a b : cptr) : M cptr :=
  invoke (Call_GEOSDifference_r ctx a b) (λ h, GEOSDifference_r E h ctx a b) track.

(** [&Service{...}]: a fresh address. *)
Definition alloc_service (sv : Service) : M loc :=
  λ w, let p := fresh (dom (services w)) in
       (Done p, mkWorld (<[p := sv]> (services w)) (geometries w) (calls w) (live w)).

(** [func NewService()], returning [*Service] and [error] *)
Definition NewService : M (option loc * option error) :=
  let* ctx := C_GEOS_init_r in
  if bool_decide (ctx = None) then
    ret (None, Some "failed to initialize GEOS context")
  else
    let* service := alloc_service (mkService ctx true) in
    ret (Some service, None).

(** [func (s *Service) Close()] *)
Definition Close (s : loc) : M unit :=
  let* sv := load_service s in
  let* _ :=
    if bool_decide (context sv ≠ None) then
      let* _ := C_GEOS_finish_r (context sv) in
      store_service s (mkService None (service_finalizer sv))
    else ret () in
  let* sv := load_service s in
  store_service s (mkService (context sv) false).

(** [func (s *Service) newGeometry(geom *C.struct_GEOSGeom_t) *Geometry] *)
Definition newGeometry (s : loc) (geom : cptr) : M (option loc) :=
  if bool_decide (geom = None) then ret None
  else
    let* g := alloc_geometry (mkGeometry geom (Some s) true) in
    ret (Some g).

(** [runtime.SetFinalizer(g, nil)] for a geometry. *)
Definition clear_geometry_finalizer (g : loc) : M unit :=
  let* gv := load_geometry (Some g) in
  store_geometry g (mkGeometry (geom gv) (service gv) false).

(** [func (g *Geometry) destroy()]. The context is read twice, once in the
    outer condition and once more after [RLock]. *)
Definition destroy (g : loc) : M unit :=
  let* gv := load_geometry (Some g) in
  let* _ :=
    match geom gv, service gv with
    | Some _, Some sp =>
        let* sv := load_service sp in
        if bool_decide (context sv ≠ None) then
          let* sv := load_service sp in
          let* _ :=
            if bool_decide (context sv ≠ None) then
              C_GEOSGeom_destroy_r (context sv) (geom gv)
            else ret () in
          store_geometry g (mkGeometry None (service gv) (geometry_finalizer gv))
        else ret ()
    | _, _ => ret ()
    end in
  clear_geometry_finalizer g.

(** [g == nil || g.geom == nil] *)
Definition nil_or_no_handle (g : option loc) : M bool :=
  if bool_decide (g = None) then ret true
  else
    let* gv := load_geometry g in
    ret (bool_decide (geom gv = None)).

(** [a == nil || b == nil || a.geom == nil || b.geom == nil] *)
Definition nil_or_no_handle2 (a b : option loc) : M bool :=
  if bool_decide (a = None) || bool_decide (b = None) then ret true
  else
    let* av := load_geometry a in
    if bool_decide (geom av = None) then ret true
    else
      let* bv := load_geometry b in
      ret (bool_decide (geom bv = None)).

(** [g.geom] *)
Definition handle_of (g : option loc) : M cptr :=
  let* gv := load_geometry g in
  ret (geom gv).

(** The first part of [ParseGeometry]: choosing the text to parse. *)
Definition input_wkt (input : GeometryInput) : string * option error :=
  if bool_decide (WKT input ≠ "") then (WKT input, None)
  else
    match GeoJSON input with
    | Some geoJSON =>
        match assert_string (geoJSON !! "type") with
        | None => ("", Some "invalid GeoJSON: missing type")
        | Some geoType =>
            match geoJSON !! "coordinates" with
            | None => ("", Some "invalid GeoJSON: missing coordinates")
            | Some coords =>
                match geoJSONToWKT geoType coords with
                | (_, Some err) =>
                    ("", Some ("failed to convert GeoJSON to WKT: " +:+ err))
                | (wkt, None) => (wkt, None)
                end
            end
        end
    | None => ("", Some ErrNoGeometry)
    end.

(** The second part of [ParseGeometry]: from [// Validate WKT format before
    parsing] to the end, with the context already known to be [ctx]. *)
Definition parse_wkt (s : loc) (ctx : cptr) (wkt : string)
    : M (option loc * option error) :=
  if bool_decide (String.length wkt = 0%nat) then ret (None, Some ErrEmptyWKT)
  else
    let* geom := C_GEOSGeomFromWKT_r ctx wkt in
    if bool_decide (geom = None) then
      ret (None, Some ("failed to parse WKT geometry: " +:+ wkt))
    else
      let* valid := C_GEOSisValid_r ctx geom in
      if bool_decide (valid = 0) then
        let* _ := C_GEOSGeom_destroy_r ctx geom in
        ret (None, Some ("invalid geometry: " +:+ wkt))
      else
        let* g := newGeometry s geom in
        ret (g, None).

(** [func (s *Service) ParseGeometry(input GeometryInput)], returning
    [*Geometry] and [error] *)
Definition ParseGeometry (s : loc) (input : GeometryInput)
    : M (option loc * option error) :=
  let* sv := load_service s in
  if bool_decide (context sv = None) then ret (None, Some ErrNotInitialized)
  else
    match input_wkt input with
    | (_, Some err) => ret (None, Some err)
    | (wkt, None) => parse_wkt s (context sv) wkt
    end.

(** [func (s *Service) ToWKT(geom *Geometry) (string, error)] *)
Definition ToWKT (s : loc) (geom : option loc) : M (string * option error) :=
  let* bad := nil_or_no_handle geom in
  if bad then ret ("", Some ErrInvalidGeometry)
  else
    let* sv := load_service s in
    if bool_decide (context sv = None) then ret ("", Some ErrNotInitialized)
    else
      let* h := handle_of geom in
      let* cWKT := C_GEOSGeomToWKT_r (context sv) h in
      match cWKT with
      | None => ret ("", Some "failed to convert geometry to WKT")
      | Some text => ret (text, None)
      end.

(** [func (s *Service) Within(a, b *Geometry) (bool, error)] *)
Definition Within (s : loc) (a b : option loc) : M (bool * option error) :=
  let* bad := nil_or_no_handle2 a b in
  if bad then ret (false, Some ErrInvalidGeometry)
  else
    let* sv := load_service s in
    if bool_decide (context sv = None) then ret (false, Some ErrNotInitialized)
    else
      let* ha := handle_of a in
      let* hb := handle_of b in
      let* result := C_GEOSWithin_r (context sv) ha hb in
      if bool_decide (result = 2) then
        ret (false, Some "GEOS within operation failed")
      else ret (bool_decide (result = 1), None).

(** [func (s *Service) Intersects(a, b *Geometry) (bool, error)] *)
Definition Intersects (s : loc) (a b : option loc) : M (bool * option error) :=
  let* bad := nil_or_no_handle2 a b in
  if bad then ret (false, Some ErrInvalidGeometry)
  else
    let* sv := load_service s in
    if bool_decide (context sv = None) then ret (false, Some ErrNotInitialized)
    else
      let* ha := handle_of a in
      let* hb := handle_of b in
      let* result := C_GEOSIntersects_r (context sv) ha hb in
      if bool_decide (result = 2) then
        ret (false, Some "GEOS intersects operation failed")
      else ret (bool_decide (result = 1), None).

(** [func (s *Service) Distance(a, b *Geometry) (float64, error)] *)
Definition Distance (s : loc) (a b : option loc) : M (float64 * option error) :=
  let* bad := nil_or_no_handle2 a b in
  if bad then ret (0%float, Some ErrInvalidGeometry)
  else
    let* sv := load_service s in
    if bool_decide (context sv = None) then ret (0%float, Some ErrNotInitialized)
    else
      let* ha := handle_of a in
      let* hb := handle_of b in
      let* answer := C_GEOSDistance_r (context sv) ha hb in
      if bool_decide (answer.1 = 0) then
        ret (0%float, Some "failed to calculate distance")
      else ret (answer.2, None).

(** [func (s *Service) Buffer(geom *Geometry, radius float64)], returning
    [*Geometry] and [error] *)
Definition Buffer (s : loc) (geom : option loc) (radius : float64)
    : M (option loc * option error) :=
  let* bad := nil_or_no_handle geom in
  if bad then ret (None, Some ErrInvalidGeometry)
  else
    let* sv := load_service s in
    if bool_decide (context sv = None) then ret (None, Some ErrNotInitialized)
    else
      let* h := handle_of geom in
      let* buffered := C_GEOSBuffer_r (context sv) h radius 8 in
      if bool_decide (buffered = None) then
        ret (None, Some "failed to create buffer")
      else
        let* g := newGeometry s buffered in
        ret (g, None).

(** [func (s *Service) Simplify(geom *Geometry, tolerance float64)], returning
    [*Geometry] and [error] *)
Definition Simplify (s : loc) (geom : option loc) (tolerance : float64)
    : M (option loc * option error) :=
  let* bad := nil_or_no_handle geom in
  if bad then ret (None, Some ErrInvalidGeometry)
  else
    let* sv := load_service s in
    if bool_decide (context sv = None) then ret (None, Some ErrNotInitialized)
    else
      let* h := handle_of geom in
      let* simplified := C_GEOSSimplify_r (context sv) h tolerance in
      if bool_decide (simplified = None) then
        ret (None, Some "failed to simplify geometry")
      else
        let* g := newGeometry s simplified in
        ret (g, None).

(** The loop of [Union], [for i := 1; i < len(geometries); i++], over the
    entries still to visit, with the current [result]. *)
Fixpoint union_loop (s : loc) (ctx : cptr) (result : option loc)
    (rest : list (option loc)) : M (option loc * option error) :=
  match rest with
  | [] => ret (result, None)
  | gi :: rest =>
      let* skip := nil_or_no_handle gi in
      if skip then union_loop s ctx result rest
      else
        let* hr := handle_of result in
        let* hi := handle_of gi in
        let* union := C_GEOSUnion_r ctx hr hi in
        if bool_decide (union = None) then
          ret (None, Some "failed to create union")
        else
          let* result := newGeometry s union in
          union_loop s ctx result rest
  end.

(** [func (s *Service) Union(geometries []*Geometry)], returning [*Geometry]
    and [error] *)
Definition Union (s : loc) (geometries : list (option loc))
    : M (option loc * option error) :=
  if bool_decide (length geometries = 0%nat) then
    ret (None, Some ErrNoGeometries)
  else if bool_decide (length geometries = 1%nat) then
    ret (mjoin (geometries !! 0%nat), None)
  else
    let* sv := load_service s in
    if bool_decide (context sv = None) then ret (None, Some ErrNotInitialized)
    else union_loop s (context sv) (mjoin (geometries !! 0%nat)) (drop 1 geometries).

(** [func (s *Service) Difference(a, b *Geometry)], returning [*Geometry] and
    [error] *)
Definition Difference (s : loc) (a b : option loc)
    : M (option loc * option error) :=
  let* bad := nil_or_no_handle2 a b in
  if bad then ret (None, Some ErrInvalidGeometry)
  else
    let* sv := load_service s in
    if bool_decide (context sv = None) then ret (None, Some ErrNotInitialized)
    else
      let* ha := handle_of a in
      let* hb := handle_of b in
      let* diff := C_GEOSDifference_r (context sv) ha hb in
      if bool_decide (diff = None) then
        ret (None, Some "failed to create difference")
      else
        let* g := newGeometry s diff in
        ret (g, None).

End Service.

(** ** [ValidateGeometry] *)

Definition validTypes : list string :=
  ["POINT"; "LINESTRING"; "POLYGON"; "MULTIPOINT"; "MULTILINESTRING";
   "MULTIPOLYGON"; "GEOMETRYCOLLECTION"].

(** The loop over [validTypes], with its [break]: the final value of
    [isValid]. [wkt[:len(validType)]] is [String.substring 0 (len validType) wkt]. *)
Fixpoint validTypes_loop (wkt : string) (types : list string) : bool :=
  match types with
  | [] => false
  | validType :: rest =>
      if bool_decide (String.length validType ≤ String.length wkt)%nat
         && bool_decide (String.substring 0 (String.length validType) wkt = validType)
      then true
      else validTypes_loop wkt rest
  end.

(** [func (s *Service) ValidateGeometry(input GeometryInput) error]. The
    receiver is not used: no lock, no context, no library call. *)
Definition ValidateGeometry (input : GeometryInput) : option error :=
  if bool_decide (WKT input = "") && bool_decide (GeoJSON input = None) then
    Some ErrNoGeometry
  else
    let wkt_error :=
      if bool_decide (WKT input ≠ "") then
        if bool_decide (String.length (WKT input) = 0%nat) then Some ErrEmptyWKT
        else if negb (validTypes_loop (WKT input) validTypes) then
          Some "invalid WKT: must start with a valid geometry type"
        else None
      else None in
    match wkt_error with
    | Some err => Some err
    | None =>
        match GeoJSON input with
        | Some geoJSON =>
            if bool_decide (geoJSON !! "type" = None) then
              Some "invalid GeoJSON: missing type field"
            else if bool_decide (geoJSON !! "coordinates" = None) then
              Some "invalid GeoJSON: missing coordinates field"
            else None
        | None => None
        end
    end.

(** * Vocabulary of the statements *)

(** ** The GeoJSON conversion *)

(** What one coordinate contributes to the text at index [i], and what a
    whole sequence contributes from index [i] on. *)
Definition coord_text (i : nat) (coord : any) : string := append_coord "" i coord.

Fixpoint emitted (i : nat) (ring : list any) : string :=
  match ring with
  | [] => ""
  | coord :: rest => coord_text i coord +:+ emitted (S i) rest
  end.

(** A coordinate whose first two elements are extracted as [float64]. *)
Definition extractable (coord : any) : Prop :=
  ∃ x y more, coord = VSlice (VFloat64 x :: VFloat64 y :: more).

(** The GeoJSON value of a well-formed coordinate pair and its text. *)
Definition pair_coord (xy : float64 * float64) : any :=
  VSlice [VFloat64 xy.1; VFloat64 xy.2].

Definition pair_text (xy : float64 * float64) : string :=
  fmt_f xy.1 +:+ " " +:+ fmt_f xy.2.

(** A coordinate cut down to its first two elements. *)
Definition first_two (coord : any) : any :=
  match coord with
  | VSlice (a :: b :: _) => VSlice [a; b]
  | _ => coord
  end.

(** The inputs [geoJSONToWKT] converts. *)
Definition convertible (geoType : string) (coords : any) : Prop :=
  (geoType = "Point" ∧ extractable coords)
  ∨ (geoType = "Polygon"
     ∧ ∃ ring holes, coords = VSlice (VSlice ring :: holes) ∧ (4 ≤ length ring)%nat)
  ∨ (geoType = "LineString" ∧ ∃ l, coords = VSlice l ∧ (2 ≤ length l)%nat).

(** The text begins with one of the keywords of [validTypes]. *)
Definition starts_with_keyword (wkt : string) : Prop :=
  ∃ keyword rest, keyword ∈ validTypes ∧ wkt = keyword +:+ rest.

(** ** The service *)

(** A pointer to a stored geometry that has a native handle. *)
Definition usable (w : World) (g : option loc) : Prop :=
  ∃ p gv, g = Some p ∧ geometries w !! p = Some gv ∧ geom gv ≠ None.

(** A [nil] pointer, or a pointer to a stored geometry without a handle. *)
Definition null_operand (w : World) (g : option loc) : Prop :=
  g = None ∨ ∃ p gv, g = Some p ∧ geometries w !! p = Some gv ∧ geom gv = None.

(** A pointer is [nil] or points into the store. *)
Definition allocated (w : World) (g : option loc) : Prop :=
  ∀ p, g = Some p → is_Some (geometries w !! p).

(** The computation leaves the whole state as it is: no library call, no
    allocation, no write. *)
Definition silent {A} (m : M A) (w : World) : Prop := (m w).2 = w.

(** The finish call [Close] makes on a service in state [sv]. *)
Definition finish_calls (sv : Service) : list call :=
  if bool_decide (context sv ≠ None) then [Call_GEOS_finish_r (context sv)] else [].

(** The cases in which [destroy] does not reach the library. *)
Definition destroy_guard_fails (w : World) (gv : Geometry) : Prop :=
  geom gv = None ∨ service gv = None
  ∨ ∃ sp sv, service gv = Some sp ∧ services w !! sp = Some sv ∧ context sv = None.

(** ** Library calls and what an operation may touch *)

(** The context argument of a library call; [GEOS_init_r] has none. *)
Definition call_context (x : call) : option cptr :=
  match x with
  | Call_GEOS_init_r => None
  | Call_GEOS_finish_r ctx
  | Call_GEOSGeomFromWKT_r ctx _
  | Call_GEOSisValid_r ctx _
  | Call_GEOSGeom_destroy_r ctx _
  | Call_GEOSGeomToWKT_r ctx _
  | Call_GEOSWithin_r ctx _ _
  | Call_GEOSIntersects_r ctx _ _
  | Call_GEOSDistance_r ctx _ _
  | Call_GEOSBuffer_r ctx _ _ _
  | Call_GEOSSimplify_r ctx _ _
  | Call_GEOSUnion_r ctx _ _
  | Call_GEOSDifference_r ctx _ _ => Some ctx
  end.

(** The geometry arguments of a library call. *)
Definition call_handles (x : call) : list cptr :=
  match x with
  | Call_GEOS_init_r | Call_GEOS_finish_r _ | Call_GEOSGeomFromWKT_r _ _ => []
  | Call_GEOSisValid_r _ g
  | Call_GEOSGeom_destroy_r _ g
  | Call_GEOSGeomToWKT_r _ g
  | Call_GEOSBuffer_r _ g _ _
  | Call_GEOSSimplify_r _ g _ => [g]
  | Call_GEOSWithin_r _ a b
  | Call_GEOSIntersects_r _ a b
  | Call_GEOSDistance_r _ a b
  | Call_GEOSUnion_r _ a b
  | Call_GEOSDifference_r _ a b => [a; b]
  end.

(** The two calls that create and destroy a context. *)
Definition lifecycle_call (x : call) : bool :=
  match x with
  | Call_GEOS_init_r | Call_GEOS_finish_r _ => true
  | _ => false
  end.

(** The call is neither [GEOS_init_r] nor [GEOS_finish_r] and its context
    argument is the context, not [nil], that service [s] holds in [S]. *)
Definition on_live_context (S : gmap loc Service) (s : loc) (x : call) : Prop :=
  lifecycle_call x = false
  ∧ ∃ sv c, S !! s = Some sv ∧ context sv = Some c
            ∧ call_context x = Some (Some c).

(** No geometry argument of the call is [NULL]. *)
Definition handles_present (x : call) : Prop := Forall is_Some (call_handles x).

(** What running [m] from [w] may do, for an operation of service [s]:
    no service changes; no stored geometry changes; every geometry that
    appears belongs to [s], which is stored, has a handle and a finalizer;
    every library call made is on the live context of [s] and satisfies
    [P]. *)
Definition footprint (P : call → Prop) (s : loc) {A} (m : M A) (w : World) : Prop :=
  services (m w).2 = services w
  ∧ (∀ p gv, geometries w !! p = Some gv → geometries (m w).2 !! p = Some gv)
  ∧ (∀ p gv, geometries (m w).2 !! p = Some gv →
       geometries w !! p = Some gv
       ∨ (service gv = Some s ∧ is_Some (services w !! s)
          ∧ is_Some (geom gv) ∧ geometry_finalizer gv = true))
  ∧ ∃ new, calls (m w).2 = calls w ++ new
           ∧ Forall (λ x, on_live_context (services w) s x ∧ P x) new.

(** ** Discipline of the call log *)

(** Every stored geometry names a stored service as its owner. *)
Definition owned (w : World) : Prop :=
  ∀ p gv, geometries w !! p = Some gv →
    ∃ sp, service gv = Some sp ∧ is_Some (services w !! sp).

(** The context is not [NULL] and is among the open ones. *)
Definition context_open (ctx : cptr) (open : list nat) : bool :=
  match ctx with
  | Some c => bool_decide (c ∈ open)
  | None => false
  end.

(** Reading one call of the log, [before] being the calls made earlier. The
    state is the list of contexts that are open, those [GEOS_init_r]
    returned and [GEOS_finish_r] has not been given since, and whether every
    call so far was made on a context that was open at that moment. *)
Definition log_step (E : Engine) (before : list call) (st : list nat * bool)
    (x : call) : list nat * bool :=
  match x with
  | Call_GEOS_init_r =>
      (match GEOS_init_r E before with Some c => c :: st.1 | None => st.1 end,
       st.2)
  | Call_GEOS_finish_r ctx =>
      (match ctx with Some c => filter (λ n, n ≠ c) st.1 | None => st.1 end,
       st.2 && context_open ctx st.1)
  | _ =>
      (st.1,
       st.2 && match call_context x with
               | Some ctx => context_open ctx st.1
               | None => true
               end)
  end.

Fixpoint replay (E : Engine) (before : list call) (st : list nat * bool)
    (rest : list call) : list nat * bool :=
  match rest with
  | [] => st
  | x :: rest => replay E (before ++ [x]) (log_step E before st x) rest
  end.

Definition open_contexts (E : Engine) (log : list call) : list nat :=
  (replay E [] ([], true) log).1.

(** No call of the log was made on a context that was [NULL], never
    returned by [GEOS_init_r], or already given to [GEOS_finish_r]. *)
Definition well_scoped (E : Engine) (log : list call) : bool :=
  (replay E [] ([], true) log).2.

(** The library does not hand out a context that is still open. *)
Definition no_reuse_while_open (E : Engine) : Prop :=
  ∀ log c, GEOS_init_r E log = Some c → c ∉ open_contexts E log.
(** What a step that is neither [NewService] nor [Close] does to the
    services and to the log. *)
Definition quiet_step (w w' : World) : Prop :=
  services w' = services w
  ∧ ∃ new, calls w' = calls w ++ new
           ∧ Forall (λ x, ∃ s, on_live_context (services w) s x) new.

(** Services that hold a context hold one that is open, and no two of them
    hold the same. *)
Definition contexts_accounted (E : Engine) (w : World) : Prop :=
  (∀ s sv c, services w !! s = Some sv → context sv = Some c →
     c ∈ open_contexts E (calls w))
  ∧ (∀ s s' sv sv' c,
       services w !! s = Some sv → services w !! s' = Some sv' →
       context sv = Some c → context sv' = Some c → s = s').

(** ** Outcomes of the operations *)

(** A pointer to a stored geometry whose native handle is [h]. *)
Definition handle_at (w : World) (g : option loc) (h : nat) : Prop :=
  ∃ p gv, g = Some p ∧ geometries w !! p = Some gv ∧ geom gv = Some h.

(** The state after one library call that returns no geometry. *)
Definition with_call (c : call) (w : World) : World :=
  mkWorld (services w) (geometries w) (calls w ++ [c]) (live w).

(** The state after a new wrapper of service [s] for handle [h] has been
    stored at the next free address. *)
Definition next_geometry (w : World) : loc := fresh (dom (geometries w)).

Definition next_service (w : World) : loc := fresh (dom (services w)).

Definition with_geometry (h : nat) (s : loc) (w : World) : World :=
  mkWorld (services w)
          (<[next_geometry w := mkGeometry (Some h) (Some s) true]> (geometries w))
          (calls w) (h :: live w).

(** The end of [Buffer], [Simplify], [Difference] and of a two-entry
    [Union] of service [s] from state [w]: the answer [h'] of call [c] is
    wrapped in a new geometry, or [failure] is reported. *)
Definition transform_outcome (s : loc) (w : World) (c : call) (h' : cptr)
    (failure : error) : result (option loc * option error) * World :=
  match h' with
  | Some n => (Done (Some (next_geometry w), None), with_geometry n s (with_call c w))
  | None => (Done (None, Some failure), with_call c w)
  end.

(** A [GEOSUnion_r] call on context [ctx]. *)
Definition union_call (ctx : cptr) (x : call) : Prop :=
  ∃ a b, x = Call_GEOSUnion_r ctx a b.

(** What is kept about a geometry [g] of a closed service [s]. *)
Definition stranded (s g : loc) (h : nat) (w : World) : Prop :=
  (∃ sv, services w !! s = Some sv ∧ context sv = None)
  ∧ ∃ gv, geometries w !! g = Some gv ∧ geom gv = Some h ∧ service gv = Some s.

(** ** A concrete engine and concrete states

    Used to run the embedding on examples. The engine numbers the handles it
    returns by the length of the call log, rejects the text ["nonsense"], and
    reports the self-crossing polygon [bowtie] as invalid. *)
Definition bowtie : string := "POLYGON((0 0, 1 1, 0 1, 1 0, 0 0))".

Definition demo_engine : Engine := {|
  GEOS_init_r := λ h, Some (1000 + length h)%nat;
  GEOSGeomFromWKT_r := λ h _ wkt,
    if bool_decide (wkt = "nonsense") then None else Some (length h);
  GEOSisValid_r := λ h _ _,
    match last h with
    | Some (Call_GEOSGeomFromWKT_r _ wkt) => if bool_decide (wkt = bowtie) then 0 else 1
    | _ => 1
    end;
  GEOSGeomToWKT_r := λ _ _ _, Some "POINT (1 1)";
  GEOSWithin_r := λ _ _ _ _, 1;
  GEOSIntersects_r := λ _ _ _ _, 1;
  GEOSDistance_r := λ _ _ _ _, (1, 5%float);
  GEOSBuffer_r := λ h _ _ _ _, Some (length h);
  GEOSSimplify_r := λ h _ _ _, Some (length h);
  GEOSUnion_r := λ h _ _ _, Some (length h);
  GEOSDifference_r := λ h _ _ _, Some (length h);
|}.

Definition empty_world : World := mkWorld ∅ ∅ [] [].

Definition point_input : GeometryInput := mkGeometryInput "POINT(1 1)" None 0.

(** [NewService()]: the service is at address 0. *)
Definition world_service : World := (NewService demo_engine empty_world).2.

(** Then [ParseGeometry] of a point: the geometry is at address 0. *)
Definition world_point : World :=
  (ParseGeometry demo_engine 0 point_input world_service).2.

(** Then [Close()]. *)
Definition world_closed : World := (Close 0 world_point).2.

(** ** States the API can reach *)

(** One call of the package's API, with any arguments, from state [w]. A
    call that panics leaves the state it had reached. *)
Inductive api_step (E : Engine) (w : World) : World → Prop :=
  | step_NewService : api_step E w (NewService E w).2
  | step_Close s : api_step E w (Close s w).2
  | step_destroy g : api_step E w (destroy g w).2
  | step_ParseGeometry s input : api_step E w (ParseGeometry E s input w).2
  | step_ToWKT s g : api_step E w (ToWKT E s g w).2
  | step_Within s a b : api_step E w (Within E s a b w).2
  | step_Intersects s a b : api_step E w (Intersects E s a b w).2
  | step_Distance s a b : api_step E w (Distance E s a b w).2
  | step_Buffer s g radius : api_step E w (Buffer E s g radius w).2
  | step_Simplify s g tolerance : api_step E w (Simplify E s g tolerance w).2
  | step_Union s geometries : api_step E w (Union E s geometries w).2
  | step_Difference s a b : api_step E w (Difference E s a b w).2.

Inductive reachable (E : Engine) : World → Prop :=
  | reachable_empty : reachable E empty_world
  | reachable_step w w' : reachable E w → api_step E w w' → reachable E w'.

(** States the API can reach from a given state. *)
Inductive later (E : Engine) (w : World) : World → Prop :=
  | later_now : later E w w
  | later_step w1 w2 : later E w w1 → api_step E w1 w2 → later E w w2.

(** * Properties of the GeoJSON conversion *)

Section Strings.

Lemma append_cons a (s t : string) : String a s +:+ t = String a (s +:+ t).
Proof. reflexivity. Qed.

Lemma append_nil_l (s : string) : "" +:+ s = s.
Proof. reflexivity. Qed.

Lemma append_nil_r (s : string) : s +:+ "" = s.
Proof. induction s as [|a s IH]; [done | by rewrite append_cons, IH]. Qed.

Lemma append_assoc (s t u : string) : (s +:+ t) +:+ u = s +:+ (t +:+ u).
Proof. induction s as [|a s IH]; [done | by rewrite !append_cons, IH]. Qed.

End Strings.

(** [fmt_f] on a few values: a tie-free rounding, a value below half a
    millionth, negative zero, an infinity. *)
Example fmt_f_examples :
  fmt_f 1.25%float = "1.250000"
  ∧ fmt_f (-1234567.5)%float = "-1234567.500000"
  ∧ fmt_f 0x1p-22%float = "0.000000"
  ∧ fmt_f (-0)%float = "-0.000000"
  ∧ fmt_f infinity = "+Inf".
Proof. split_and!; vm_compute; reflexivity. Qed.

Lemma append_coord_text wkt i coord :
  append_coord wkt i coord = wkt +:+ coord_text i coord.
Proof.
  unfold coord_text, append_coord.
  destruct (assert_slice coord) as [arr|]; [| by rewrite append_nil_r].
  case_bool_decide; [| by rewrite append_nil_r].
  destruct (assert_float64 (arr !! 0%nat)); [| by rewrite append_nil_r].
  destruct (assert_float64 (arr !! 1%nat)); [| by rewrite append_nil_r].
  case_bool_decide; by rewrite ?append_assoc.
Qed.

Lemma coords_loop_emitted ring : ∀ wkt i,
  coords_loop wkt i ring = wkt +:+ emitted i ring.
Proof.
  induction ring as [|coord rest IH]; intros wkt i; simpl.
  - by rewrite append_nil_r.
  - by rewrite IH, append_coord_text, append_assoc.
Qed.

Lemma emitted_app before after : ∀ i,
  emitted i (before ++ after) =
  emitted i before +:+ emitted (i + length before) after.
Proof.
  induction before as [|c before IH]; intros i; simpl.
  - by rewrite Nat.add_0_r.
  - by rewrite IH, append_assoc, Nat.add_succ_r.
Qed.

Lemma coord_text_not_extractable i coord :
  ¬ extractable coord → coord_text i coord = "".
Proof.
  intros Hbad. unfold coord_text, append_coord.
  destruct coord as [| | | | |arr| |]; simpl; try done.
  case_bool_decide; [|done].
  destruct arr as [|[] [|[] more]]; simpl; try done.
  exfalso. apply Hbad. by eexists _, _, _.
Qed.

Lemma coord_text_pair i xy :
  coord_text i (pair_coord xy) =
  (if bool_decide (0 < i)%nat then ", " else "") +:+ pair_text xy.
Proof.
  unfold coord_text, append_coord, pair_coord, pair_text; simpl.
  by case_bool_decide.
Qed.

(** After the first position the separator no longer depends on the index. *)
Lemma coord_text_later i j coord :
  (0 < i)%nat → (0 < j)%nat → coord_text i coord = coord_text j coord.
Proof.
  intros Hi Hj. unfold coord_text, append_coord.
  by rewrite !bool_decide_eq_true_2 by done.
Qed.

Lemma emitted_later ring : ∀ i j,
  (0 < i)%nat → (0 < j)%nat → emitted i ring = emitted j ring.
Proof.
  induction ring as [|c ring IH]; intros i j Hi Hj; simpl; [done|].
  rewrite (coord_text_later i j) by done.
  f_equal. apply IH; lia.
Qed.

Lemma emitted_pairs xys :
  emitted 0 (pair_coord <$> xys) = String.concat ", " (pair_text <$> xys).
Proof.
  destruct xys as [|xy xys]; [done|].
  cbn [fmap list_fmap emitted].
  rewrite coord_text_pair, bool_decide_eq_false_2, append_nil_l by lia.
  revert xy. induction xys as [|xy' xys IH]; intros xy.
  - simpl. by rewrite append_nil_r.
  - cbn [fmap list_fmap emitted String.concat].
    rewrite coord_text_pair, bool_decide_eq_true_2 by lia.
    rewrite (emitted_later _ 2 1) by lia.
    rewrite append_assoc, (IH xy'). done.
Qed.

Lemma linestring_text (coords : list any) :
  (2 ≤ length coords)%nat →
  geoJSONToWKT "LineString" (VSlice coords) =
  ("LINESTRING(" +:+ emitted 0 coords +:+ ")", None).
Proof.
  intros Hlen. unfold geoJSONToWKT; simpl.
  rewrite bool_decide_eq_true_2 by done.
  by rewrite coords_loop_emitted, append_assoc.
Qed.

Lemma polygon_text (ring : list any) (holes : list any) :
  (4 ≤ length ring)%nat →
  geoJSONToWKT "Polygon" (VSlice (VSlice ring :: holes)) =
  ("POLYGON((" +:+ emitted 0 ring +:+ "))", None).
Proof.
  intros Hlen. unfold geoJSONToWKT; simpl.
  rewrite bool_decide_eq_true_2 by done.
  by rewrite coords_loop_emitted, append_assoc.
Qed.

(** C8, as stated, fails for Point: a Point whose first element is a string
    is not converted with the coordinate left out, the conversion fails. *)
Lemma point_bad_coordinate_is_error :
  geoJSONToWKT "Point" (VSlice [VString "1.0"; VFloat64 2]) =
  ("", Some ErrInvalidPoint).
Proof. reflexivity. Qed.

(** C8 (amended). In the LineString and Polygon conversions, once the length
    guard is passed, a coordinate whose first two elements are not extracted
    as [float64] contributes nothing to the text and the conversion still
    succeeds: the text is made of what the coordinates before it and after it
    contribute at their own positions. In the Point conversion such a
    coordinate makes the conversion fail with "invalid Point coordinates". *)
Theorem unextractable_coordinate (before after : list any) (bad : any) :
  ¬ extractable bad →
  ((2 ≤ length (before ++ bad :: after))%nat →
     geoJSONToWKT "LineString" (VSlice (before ++ bad :: after)) =
     ("LINESTRING(" +:+ emitted 0 before +:+
        emitted (S (length before)) after +:+ ")", None))
  ∧ ((4 ≤ length (before ++ bad :: after))%nat →
     ∀ holes,
       geoJSONToWKT "Polygon" (VSlice (VSlice (before ++ bad :: after) :: holes)) =
       ("POLYGON((" +:+ emitted 0 before +:+
          emitted (S (length before)) after +:+ "))", None))
  ∧ geoJSONToWKT "Point" bad = ("", Some ErrInvalidPoint).
Proof.
  intros Hbad.
  assert (emitted 0 (before ++ bad :: after) =
          emitted 0 before +:+ emitted (S (length before)) after) as Hem.
  { rewrite emitted_app. cbn [emitted Nat.add].
    by rewrite coord_text_not_extractable. }
  split; [|split].
  - intros Hlen. by rewrite linestring_text, Hem, append_assoc.
  - intros Hlen holes. by rewrite polygon_text, Hem, append_assoc.
  - unfold geoJSONToWKT; simpl.
    destruct bad as [| | | | |arr| |]; simpl; try done.
    case_bool_decide; [|done].
    destruct arr as [|[] [|[] more]]; simpl; try done.
    exfalso. apply Hbad. by eexists _, _, _.
Qed.

Lemma unextractable_coordinate_witness :
  geoJSONToWKT "LineString"
    (VSlice [pair_coord (0, 0)%float; VSlice [VString "1"; VFloat64 1];
             pair_coord (2, 2.5)%float]) =
  ("LINESTRING(0.000000 0.000000, 2.000000 2.500000)", None).
Proof.
  assert (¬ extractable (VSlice [VString "1"; VFloat64 1])) as Hbad.
  { intros (x & y & more & Heq). discriminate Heq. }
  pose proof (unextractable_coordinate
    [pair_coord (0, 0)%float] [pair_coord (2, 2.5)%float] _ Hbad) as [HL _].
  simpl in HL. rewrite HL by lia. vm_compute. reflexivity.
Defined.

(** C9, as stated, fails: a LineString of a single coordinate pair is
    rejected by this layer. *)
Lemma linestring_single_pair_is_error :
  geoJSONToWKT "LineString" (VSlice [pair_coord (1, 2)%float]) =
  ("", Some ErrInvalidLineString).
Proof. reflexivity. Qed.

(** C9 (amended). The LineString conversion succeeds for every sequence of at
    least 2 elements, and for coordinate pairs it emits
    [LINESTRING(x1 y1, x2 y2, ...)]; a sequence of fewer than 2 elements is
    rejected with "invalid LineString coordinates". *)
Theorem linestring_conversion (coords : list any) :
  ((2 ≤ length coords)%nat →
     (geoJSONToWKT "LineString" (VSlice coords)).2 = None
     ∧ ∀ xys, coords = pair_coord <$> xys →
         geoJSONToWKT "LineString" (VSlice coords) =
         ("LINESTRING(" +:+ String.concat ", " (pair_text <$> xys) +:+ ")", None))
  ∧ ((length coords < 2)%nat →
     geoJSONToWKT "LineString" (VSlice coords) = ("", Some ErrInvalidLineString)).
Proof.
  split.
  - intros Hlen. rewrite linestring_text by done. split; [done|].
    intros xys ->. by rewrite emitted_pairs.
  - intros Hlen. unfold geoJSONToWKT; simpl.
    by rewrite bool_decide_eq_false_2 by lia.
Qed.

Lemma linestring_conversion_witness :
  geoJSONToWKT "LineString"
    (VSlice (pair_coord <$> [(0, 0); (1, 1.25)]%float)) =
  ("LINESTRING(0.000000 0.000000, 1.000000 1.250000)", None)
  ∧ geoJSONToWKT "LineString" (VSlice []) = ("", Some ErrInvalidLineString).
Proof.
  split.
  - pose proof (linestring_conversion
      (pair_coord <$> [(0, 0); (1, 1.25)]%float)) as [Hok _].
    destruct Hok as [_ Htext]; [simpl; lia|].
    rewrite (Htext _ eq_refl). vm_compute. reflexivity.
  - apply (linestring_conversion []). simpl. lia.
Defined.

(** C10. The Polygon conversion returns "invalid Polygon coordinates" unless
    the coordinates are a non-empty [[]interface{}] whose first element is a
    [[]interface{}] of at least 4 elements; when it succeeds, the text is
    [POLYGON((...))] around what the elements of that first ring contribute,
    whatever the other rings are. *)
Theorem polygon_conversion (coords : any) :
  (∀ ring holes, coords = VSlice (VSlice ring :: holes) → (4 ≤ length ring)%nat →
     geoJSONToWKT "Polygon" coords = ("POLYGON((" +:+ emitted 0 ring +:+ "))", None)
     ∧ geoJSONToWKT "Polygon" coords = geoJSONToWKT "Polygon" (VSlice [VSlice ring]))
  ∧ ((¬ ∃ ring holes, coords = VSlice (VSlice ring :: holes) ∧ (4 ≤ length ring)%nat) →
     geoJSONToWKT "Polygon" coords = ("", Some ErrInvalidPolygon)).
Proof.
  split.
  - intros ring holes -> Hlen. by rewrite !polygon_text.
  - intros Hshape. unfold geoJSONToWKT; simpl.
    destruct coords as [| | | | |rings| |]; simpl; try done.
    destruct rings as [|first holes]; simpl; [done|].
    destruct first as [| | | | |ring| |]; simpl; try done.
    case_bool_decide; [|done].
    exfalso. apply Hshape. by eexists _, _.
Qed.

Lemma polygon_conversion_witness :
  geoJSONToWKT "Polygon"
    (VSlice [VSlice (pair_coord <$> [(0, 0); (1, 0); (1, 1); (0, 0)]%float);
             VSlice (pair_coord <$> [(5, 5); (6, 5); (6, 6); (5, 5)]%float)]) =
  ("POLYGON((0.000000 0.000000, 1.000000 0.000000, 1.000000 1.000000, 0.000000 0.000000))",
   None)
  ∧ geoJSONToWKT "Polygon"
      (VSlice [VSlice (pair_coord <$> [(0, 0); (1, 0); (0, 0)]%float)]) =
    ("", Some ErrInvalidPolygon).
Proof.
  split.
  - pose proof (polygon_conversion (VSlice
      [VSlice (pair_coord <$> [(0, 0); (1, 0); (1, 1); (0, 0)]%float);
       VSlice (pair_coord <$> [(5, 5); (6, 5); (6, 6); (5, 5)]%float)])) as [Hok _].
    destruct (Hok _ _ eq_refl) as [Htext _]; [simpl; lia|].
    rewrite Htext. vm_compute. reflexivity.
  - apply polygon_conversion.
    intros (ring & holes & Heq & Hlen). injection Heq as <- _.
    simpl in Hlen. lia.
Defined.

(** * Properties of the service and of the geometry wrappers *)

Section Basics.

Lemma load_service_Some w s sv :
  services w !! s = Some sv → load_service s w = (Done sv, w).
Proof. intros H. unfold load_service. by rewrite H. Qed.

Lemma load_geometry_Some w p gv :
  geometries w !! p = Some gv → load_geometry (Some p) w = (Done gv, w).
Proof. intros H. unfold load_geometry. simpl. by rewrite H. Qed.

End Basics.

Lemma Close_spec s sv w :
  services w !! s = Some sv →
  Close s w =
  (Done (), mkWorld (<[s := mkService None false]> (services w)) (geometries w)
                    (calls w ++ finish_calls sv) (live w)).
Proof.
  intros Hs. unfold Close, finish_calls, bind.
  rewrite (load_service_Some _ _ _ Hs).
  case_bool_decide as Hctx.
  - unfold C_GEOS_finish_r, invoke, store_service, load_service; simpl.
    rewrite lookup_insert_eq. simpl. by rewrite insert_insert_eq.
  - unfold ret. rewrite (load_service_Some _ _ _ Hs).
    unfold store_service. rewrite app_nil_r.
    destruct (context sv); [by destruct Hctx | done].
Qed.

(** C4. [Close] on a stored service returns normally, calls
    [GEOS_finish_r] only when the context is not [nil], and leaves the
    context [nil]; a second [Close] right after it returns normally and
    leaves the whole state as it is, so it makes no library call. *)
Theorem Close_idempotent (s : loc) (sv : Service) (w : World) :
  services w !! s = Some sv →
  let w1 := (Close s w).2 in
  (Close s w).1 = Done ()
  ∧ calls w1 = calls w ++ finish_calls sv
  ∧ (context sv = None → calls w1 = calls w)
  ∧ context <$> services w1 !! s = Some None
  ∧ Close s w1 = (Done (), w1).
Proof.
  intros Hs w1. subst w1. rewrite (Close_spec _ _ _ Hs). simpl.
  split_and!; try done.
  - intros Hnil. unfold finish_calls.
    rewrite bool_decide_eq_false_2, app_nil_r; [done | by rewrite Hnil; intros []].
  - by rewrite lookup_insert_eq.
  - erewrite Close_spec by (simpl; apply lookup_insert_eq). simpl.
    by rewrite insert_insert_eq, app_nil_r.
Qed.

Lemma Close_idempotent_witness :
  calls world_closed = calls world_point ++ [Call_GEOS_finish_r (Some 1000%nat)]
  ∧ Close 0 world_closed = (Done (), world_closed).
Proof.
  assert (services world_point !! 0%nat = Some (mkService (Some 1000%nat) true))
    as Hs by (vm_compute; reflexivity).
  destruct (Close_idempotent 0 _ world_point Hs) as (_ & Hcalls & _ & _ & Hagain).
  split; [exact Hcalls | exact Hagain].
Defined.

(** C6. [Union] of a one-element list returns that very pointer without
    touching the state, so without any library call or allocation; [Union] of
    the empty list fails with "no geometries provided". *)
Theorem Union_single_and_empty (E : Engine) (s : loc) (g : option loc) (w : World) :
  Union E s [g] w = (Done (g, None), w)
  ∧ Union E s [] w = (Done (None, Some ErrNoGeometries), w).
Proof. split; reflexivity. Qed.

(** ** [destroy] *)

Lemma destroy_live g gv h sp sv w :
  geometries w !! g = Some gv → geom gv = Some h → service gv = Some sp →
  services w !! sp = Some sv → context sv ≠ None →
  destroy g w =
  (Done (), mkWorld (services w)
                    (<[g := mkGeometry None (Some sp) false]> (geometries w))
                    (calls w ++ [Call_GEOSGeom_destroy_r (context sv) (Some h)])
                    (untrack1 h (live w))).
Proof.
  intros Hg Hh Hsp Hs Hctx. unfold destroy, bind.
  rewrite (load_geometry_Some _ _ _ Hg), Hh, Hsp.
  rewrite (load_service_Some _ _ _ Hs).
  rewrite bool_decide_eq_true_2 by done.
  rewrite (load_service_Some _ _ _ Hs).
  rewrite bool_decide_eq_true_2 by done.
  unfold C_GEOSGeom_destroy_r, invoke, store_geometry, clear_geometry_finalizer,
    bind, load_geometry; simpl.
  rewrite lookup_insert_eq. unfold store_geometry. simpl.
  by rewrite insert_insert_eq.
Qed.

Lemma destroy_skipped g gv w :
  geometries w !! g = Some gv → destroy_guard_fails w gv →
  destroy g w =
  (Done (), mkWorld (services w)
                    (<[g := mkGeometry (geom gv) (service gv) false]> (geometries w))
                    (calls w) (live w)).
Proof.
  intros Hg Hskip. unfold destroy, bind.
  rewrite (load_geometry_Some _ _ _ Hg).
  assert (∀ w', geometries w' = geometries w →
    clear_geometry_finalizer g w' =
    (Done (), mkWorld (services w')
       (<[g := mkGeometry (geom gv) (service gv) false]> (geometries w'))
       (calls w') (live w'))) as Hclear.
  { intros w' Hw'. unfold clear_geometry_finalizer, bind.
    by rewrite (load_geometry_Some w' g gv) by (by rewrite Hw'). }
  destruct (geom gv) as [h|] eqn:Hh; [destruct (service gv) as [sp|] eqn:Hsp|];
    unfold ret.
  - destruct Hskip as [? | [? | (sp' & sv & Hsp' & Hs & Hctx)]]; [congruence..|].
    assert (sp' = sp) as -> by congruence.
    rewrite (load_service_Some _ _ _ Hs).
    rewrite bool_decide_eq_false_2 by (by rewrite Hctx; intros []).
    unfold ret. by rewrite Hclear.
  - by rewrite Hclear.
  - by rewrite Hclear.
Qed.

(** C3, as stated, fails: on a geometry whose service was closed first,
    [destroy] leaves the native handle field as it was. *)
Lemma destroy_after_Close_keeps_handle :
  geom <$> geometries world_closed !! 0%nat = Some (Some 1%nat)
  ∧ geom <$> geometries (destroy 0 world_closed).2 !! 0%nat = Some (Some 1%nat)
  ∧ geom <$> geometries (destroy 0 world_closed).2 !! 0%nat ≠ Some None.
Proof. split_and!; [vm_compute; reflexivity .. | vm_compute; discriminate]. Qed.

(** C3 (amended). [destroy] on a stored geometry of a stored service returns
    normally and cancels the geometry's finalizer. When the geometry has a
    handle and the service's context is live, the library's destroy is called
    once, on that context and handle, and the handle field becomes [nil].
    When the service has already been closed, no library call is made and the
    handle field is left as it was. *)
Theorem destroy_handle_and_finalizer (g sp : loc) (gv : Geometry) (sv : Service)
    (w : World) :
  geometries w !! g = Some gv → service gv = Some sp → services w !! sp = Some sv →
  let w' := (destroy g w).2 in
  (destroy g w).1 = Done ()
  ∧ geometry_finalizer <$> geometries w' !! g = Some false
  ∧ (∀ h, geom gv = Some h → context sv ≠ None →
       calls w' = calls w ++ [Call_GEOSGeom_destroy_r (context sv) (Some h)]
       ∧ geom <$> geometries w' !! g = Some None)
  ∧ (context sv = None →
       calls w' = calls w ∧ geom <$> geometries w' !! g = Some (geom gv)).
Proof.
  intros Hg Hsp Hs w'. subst w'.
  destruct (geom gv) as [h|] eqn:Hh; [destruct (context sv) as [ctx|] eqn:Hctx|].
  - erewrite destroy_live by (done || by rewrite Hctx). simpl.
    rewrite lookup_insert_eq. split_and!; try done.
    intros h' [= <-] _. by rewrite Hctx.
  - erewrite destroy_skipped by (done || (right; right; by eexists _, _)). simpl.
    rewrite lookup_insert_eq, Hh. by split_and!.
  - erewrite destroy_skipped by (done || by left). simpl.
    rewrite lookup_insert_eq, Hh. by split_and!.
Qed.

Lemma destroy_handle_and_finalizer_witness :
  (calls (destroy 0 world_point).2 =
     calls world_point ++ [Call_GEOSGeom_destroy_r (Some 1000%nat) (Some 1%nat)]
   ∧ geom <$> geometries (destroy 0 world_point).2 !! 0%nat = Some None)
  ∧ (calls (destroy 0 world_closed).2 = calls world_closed
     ∧ geom <$> geometries (destroy 0 world_closed).2 !! 0%nat = Some (Some 1%nat)).
Proof.
  split.
  - assert (geometries world_point !! 0%nat = Some (mkGeometry (Some 1%nat) (Some 0%nat) true))
      as Hg by (vm_compute; reflexivity).
    assert (services world_point !! 0%nat = Some (mkService (Some 1000%nat) true))
      as Hs by (vm_compute; reflexivity).
    destruct (destroy_handle_and_finalizer 0 0 _ _ world_point Hg eq_refl Hs)
      as (_ & _ & Hlive & _).
    apply (Hlive 1%nat); [reflexivity | discriminate].
  - assert (geometries world_closed !! 0%nat = Some (mkGeometry (Some 1%nat) (Some 0%nat) true))
      as Hg by (vm_compute; reflexivity).
    assert (services world_closed !! 0%nat = Some (mkService None false))
      as Hs by (vm_compute; reflexivity).
    destruct (destroy_handle_and_finalizer 0 0 _ _ world_closed Hg eq_refl Hs)
      as (_ & _ & _ & Hclosed).
    apply Hclosed. reflexivity.
Defined.

(** C5. On a stored geometry whose service pointer, if any, points to a stored
    service, [destroy] returns normally, and a second [destroy] right after it
    returns normally and leaves the whole state as it is: it makes no library
    call, so the handle is not destroyed twice, and running [destroy] twice
    is the same as running it once. *)
Theorem destroy_idempotent (g : loc) (gv : Geometry) (w : World) :
  geometries w !! g = Some gv →
  (∀ sp, service gv = Some sp → is_Some (services w !! sp)) →
  let w1 := (destroy g w).2 in
  (destroy g w).1 = Done ()
  ∧ destroy g w1 = (Done (), w1)
  ∧ (let* _ := destroy g in destroy g) w = destroy g w.
Proof.
  intros Hg Hsv w1. subst w1.
  assert ((destroy g w).1 = Done () ∧
          destroy g (destroy g w).2 = (Done (), (destroy g w).2)) as [H1 H2].
  { destruct (geom gv) as [h|] eqn:Hh; [destruct (service gv) as [sp|] eqn:Hsp|].
    - destruct (Hsv sp eq_refl) as [sv Hs].
      destruct (context sv) as [ctx|] eqn:Hctx.
      + erewrite destroy_live by (done || by rewrite Hctx). simpl. split; [done|].
        erewrite destroy_skipped; [|simpl; apply lookup_insert_eq|by left].
        simpl. by rewrite insert_insert_eq.
      + erewrite destroy_skipped by (done || (right; right; by eexists _, _)).
        simpl. split; [done|].
        erewrite destroy_skipped;
          [|simpl; apply lookup_insert_eq|right; right; by eexists _, _].
        simpl. by rewrite insert_insert_eq.
    - erewrite destroy_skipped by (done || (right; by left)). simpl. split; [done|].
      erewrite destroy_skipped; [|simpl; apply lookup_insert_eq|right; by left].
      simpl. by rewrite insert_insert_eq.
    - erewrite destroy_skipped by (done || by left). simpl. split; [done|].
      erewrite destroy_skipped; [|simpl; apply lookup_insert_eq|by left].
      simpl. by rewrite insert_insert_eq. }
  split_and!; [done..|].
  unfold bind. destruct (destroy g w) as [[[]|msg] w1] eqn:Hd; simpl in *; [|done].
  by rewrite H2.
Qed.

Lemma destroy_idempotent_witness :
  destroy 0 (destroy 0 world_point).2 = (Done (), (destroy 0 world_point).2)
  ∧ calls (destroy 0 (destroy 0 world_point).2).2 =
    calls world_point ++ [Call_GEOSGeom_destroy_r (Some 1000%nat) (Some 1%nat)].
Proof.
  assert (geometries world_point !! 0%nat = Some (mkGeometry (Some 1%nat) (Some 0%nat) true))
    as Hg by (vm_compute; reflexivity).
  assert (∀ sp, service (mkGeometry (Some 1%nat) (Some 0%nat) true) = Some sp →
            is_Some (services world_point !! sp)) as Hsv.
  { intros sp [= <-]. vm_compute. eauto. }
  destruct (destroy_idempotent 0 _ world_point Hg Hsv) as (_ & Hagain & _).
  split; [exact Hagain|]. rewrite Hagain. vm_compute. reflexivity.
Defined.

(** ** [ParseGeometry] *)

Lemma append_nonempty_l (s t : string) : s ≠ "" → s +:+ t ≠ "".
Proof. by destruct s. Qed.

Lemma append_nonempty_r (s t : string) : t ≠ "" → s +:+ t ≠ "".
Proof. destruct s; [done | by rewrite append_cons]. Qed.

Lemma length_zero_empty (s : string) : String.length s = 0%nat ↔ s = "".
Proof. by destruct s. Qed.

Lemma geoJSONToWKT_nonempty geoType coords wkt :
  geoJSONToWKT geoType coords = (wkt, None) → wkt ≠ "".
Proof.
  unfold geoJSONToWKT. intros H.
  repeat case_match; simplify_eq; try done; by apply append_nonempty_r.
Qed.

(** The text [ParseGeometry] goes on to parse is never empty, so its
    "empty WKT string" branch is not reached from [ParseGeometry]. *)
Lemma input_wkt_nonempty input wkt : input_wkt input = (wkt, None) → wkt ≠ "".
Proof.
  unfold input_wkt. intros H.
  case_bool_decide; [by simplify_eq|].
  repeat case_match; simplify_eq. by eapply geoJSONToWKT_nonempty.
Qed.

Lemma parse_wkt_invalid E s ctx wkt h w :
  wkt ≠ "" →
  GEOSGeomFromWKT_r E (calls w) ctx wkt = Some h →
  GEOSisValid_r E (calls w ++ [Call_GEOSGeomFromWKT_r ctx wkt]) ctx (Some h) = 0 →
  parse_wkt E s ctx wkt w =
  (Done (None, Some ("invalid geometry: " +:+ wkt)),
   mkWorld (services w) (geometries w)
           (calls w ++ [Call_GEOSGeomFromWKT_r ctx wkt;
                        Call_GEOSisValid_r ctx (Some h);
                        Call_GEOSGeom_destroy_r ctx (Some h)])
           (live w)).
Proof.
  intros Hne Hparse Hvalid. unfold parse_wkt.
  rewrite bool_decide_eq_false_2 by (by rewrite length_zero_empty).
  unfold bind, C_GEOSGeomFromWKT_r, C_GEOSisValid_r, C_GEOSGeom_destroy_r, invoke, ret.
  simpl. rewrite Hparse. simpl. rewrite Hvalid. simpl.
  rewrite bool_decide_eq_true_2 by done.
  by rewrite <- !app_assoc.
Qed.

(** C7. On a live service: when the chosen text is parsed into a handle and
    the validity check answers 0, [ParseGeometry] calls the library exactly
    three times (parse, validity, destroy of that handle), returns the
    "invalid geometry" error carrying the text, creates no wrapper, and the
    set of outstanding native handles is what it was. When the input has
    neither text nor GeoJSON, it returns the "no geometry provided" error and
    leaves the state as it is; the check on an empty text returns
    "empty WKT string", also without a library call. *)
Theorem ParseGeometry_invalid_and_empty (E : Engine) (s : loc) (sv : Service)
    (w : World) :
  services w !! s = Some sv → context sv ≠ None →
  (∀ input wkt h,
     input_wkt input = (wkt, None) →
     GEOSGeomFromWKT_r E (calls w) (context sv) wkt = Some h →
     GEOSisValid_r E (calls w ++ [Call_GEOSGeomFromWKT_r (context sv) wkt])
                   (context sv) (Some h) = 0 →
     ParseGeometry E s input w =
     (Done (None, Some ("invalid geometry: " +:+ wkt)),
      mkWorld (services w) (geometries w)
              (calls w ++ [Call_GEOSGeomFromWKT_r (context sv) wkt;
                           Call_GEOSisValid_r (context sv) (Some h);
                           Call_GEOSGeom_destroy_r (context sv) (Some h)])
              (live w)))
  ∧ (∀ input, WKT input = "" → GeoJSON input = None →
       ParseGeometry E s input w = (Done (None, Some ErrNoGeometry), w))
  ∧ parse_wkt E s (context sv) "" w = (Done (None, Some ErrEmptyWKT), w).
Proof.
  intros Hs Hctx. split_and!.
  - intros input wkt h Hin Hparse Hvalid. unfold ParseGeometry, bind.
    rewrite (load_service_Some _ _ _ Hs).
    rewrite bool_decide_eq_false_2 by done. rewrite Hin.
    apply parse_wkt_invalid; [by eapply input_wkt_nonempty | done..].
  - intros input Hwkt Hjson. unfold ParseGeometry, bind.
    rewrite (load_service_Some _ _ _ Hs).
    rewrite bool_decide_eq_false_2 by done.
    unfold input_wkt. rewrite Hwkt, Hjson. done.
  - done.
Qed.

Lemma ParseGeometry_invalid_and_empty_witness :
  ParseGeometry demo_engine 0 (mkGeometryInput bowtie None 0) world_service =
  (Done (None, Some ("invalid geometry: " +:+ bowtie)),
   mkWorld (services world_service) (geometries world_service)
     (calls world_service ++
        [Call_GEOSGeomFromWKT_r (Some 1000%nat) bowtie;
         Call_GEOSisValid_r (Some 1000%nat) (Some 1%nat);
         Call_GEOSGeom_destroy_r (Some 1000%nat) (Some 1%nat)])
     (live world_service))
  ∧ ParseGeometry demo_engine 0 (mkGeometryInput "" None 0) world_service =
    (Done (None, Some ErrNoGeometry), world_service).
Proof.
  assert (services world_service !! 0%nat = Some (mkService (Some 1000%nat) true))
    as Hs by (vm_compute; reflexivity).
  assert (context (mkService (Some 1000%nat) true) ≠ None) as Hctx by discriminate.
  destruct (ParseGeometry_invalid_and_empty demo_engine 0 _ world_service Hs Hctx)
    as (Hinvalid & Hempty & _).
  split.
  - apply (Hinvalid (mkGeometryInput bowtie None 0) bowtie 1%nat);
      vm_compute; reflexivity.
  - apply Hempty; reflexivity.
Defined.

(** ** Operand checks *)

Lemma nil_or_no_handle_silent g w : silent (nil_or_no_handle g) w.
Proof.
  unfold silent, nil_or_no_handle, bind, load_geometry, ret.
  case_bool_decide; [done|]. by destruct (g ≫= _).
Qed.

Lemma nil_or_no_handle2_silent a b w : silent (nil_or_no_handle2 a b) w.
Proof.
  unfold silent, nil_or_no_handle2, bind, load_geometry, ret.
  destruct (_ || _); [done|].
  destruct (a ≫= _); [|done]. simpl.
  case_bool_decide; [done|]. by destruct (b ≫= _).
Qed.

Lemma handle_of_silent g w : silent (handle_of g) w.
Proof.
  unfold silent, handle_of, bind, load_geometry, ret. by destruct (g ≫= _).
Qed.

Lemma nil_or_no_handle_usable g w :
  usable w g → nil_or_no_handle g w = (Done false, w).
Proof.
  intros (p & gv & -> & Hg & Hh). unfold nil_or_no_handle, bind, ret.
  rewrite bool_decide_eq_false_2 by done.
  rewrite (load_geometry_Some _ _ _ Hg).
  by rewrite bool_decide_eq_false_2.
Qed.

Lemma nil_or_no_handle_null g w :
  null_operand w g → nil_or_no_handle g w = (Done true, w).
Proof.
  intros [-> | (p & gv & -> & Hg & Hh)]; [done|].
  unfold nil_or_no_handle, bind, ret.
  rewrite bool_decide_eq_false_2 by done.
  rewrite (load_geometry_Some _ _ _ Hg).
  by rewrite bool_decide_eq_true_2.
Qed.

Lemma nil_or_no_handle2_usable a b w :
  usable w a → usable w b → nil_or_no_handle2 a b w = (Done false, w).
Proof.
  intros (pa & av & -> & Ha & Hha) (pb & bv & -> & Hb & Hhb).
  unfold nil_or_no_handle2, bind, ret.
  rewrite !bool_decide_eq_false_2 by done. simpl.
  rewrite (load_geometry_Some _ _ _ Ha).
  rewrite bool_decide_eq_false_2 by done.
  rewrite (load_geometry_Some _ _ _ Hb).
  by rewrite bool_decide_eq_false_2.
Qed.

Lemma nil_or_no_handle2_null a b w :
  allocated w a → allocated w b → null_operand w a ∨ null_operand w b →
  nil_or_no_handle2 a b w = (Done true, w).
Proof.
  intros Ha Hb Hnull. unfold nil_or_no_handle2, bind, ret.
  destruct a as [pa|]; [|done]. destruct b as [pb|]; [|done].
  rewrite !bool_decide_eq_false_2 by done. simpl.
  destruct (Ha pa eq_refl) as [av Hav]. destruct (Hb pb eq_refl) as [bv Hbv].
  rewrite (load_geometry_Some _ _ _ Hav).
  case_bool_decide as Hha; [done|].
  rewrite (load_geometry_Some _ _ _ Hbv).
  destruct Hnull as [[? | (p & gv & ? & Hg & Hh)] | [? | (p & gv & ? & Hg & Hh)]];
    simplify_eq.
  by rewrite bool_decide_eq_true_2.
Qed.

(** ** Operations on a closed service *)

Section Closed.

Variable E : Engine.
Variables (s : loc) (sv : Service) (w : World).
Hypothesis Hs : services w !! s = Some sv.
Hypothesis Hclosed : context sv = None.

Local Ltac refuse :=
  unfold bind; rewrite (load_service_Some _ _ _ Hs);
  rewrite bool_decide_eq_true_2 by done; reflexivity.

Local Ltac after_check H :=
  unfold bind; rewrite H by done; refuse.

Local Ltac quiet check_silent :=
  unfold silent, bind;
  match goal with
  | |- context [match ?check ?w0 with _ => _ end] =>
      let H := fresh in
      pose proof (check_silent w0) as H; unfold silent in H;
      destruct (check w0) as [[[]|] ?]; simpl in *; subst; try done
  end;
  rewrite (load_service_Some _ _ _ Hs);
  rewrite bool_decide_eq_true_2 by done; reflexivity.

Lemma closed_ParseGeometry input :
  ParseGeometry E s input w = (Done (None, Some ErrNotInitialized), w).
Proof. unfold ParseGeometry. refuse. Qed.

Lemma closed_ToWKT g :
  usable w g → ToWKT E s g w = (Done ("", Some ErrNotInitialized), w).
Proof. intros. unfold ToWKT. after_check nil_or_no_handle_usable. Qed.

Lemma closed_Within a b :
  usable w a → usable w b →
  Within E s a b w = (Done (false, Some ErrNotInitialized), w).
Proof. intros. unfold Within. after_check nil_or_no_handle2_usable. Qed.

Lemma closed_Intersects a b :
  usable w a → usable w b →
  Intersects E s a b w = (Done (false, Some ErrNotInitialized), w).
Proof. intros. unfold Intersects. after_check nil_or_no_handle2_usable. Qed.

Lemma closed_Distance a b :
  usable w a → usable w b →
  Distance E s a b w = (Done (0%float, Some ErrNotInitialized), w).
Proof. intros. unfold Distance. after_check nil_or_no_handle2_usable. Qed.

Lemma closed_Difference a b :
  usable w a → usable w b →
  Difference E s a b w = (Done (None, Some ErrNotInitialized), w).
Proof. intros. unfold Difference. after_check nil_or_no_handle2_usable. Qed.

Lemma closed_Buffer g radius :
  usable w g → Buffer E s g radius w = (Done (None, Some ErrNotInitialized), w).
Proof. intros. unfold Buffer. after_check nil_or_no_handle_usable. Qed.

Lemma closed_Simplify g tolerance :
  usable w g → Simplify E s g tolerance w = (Done (None, Some ErrNotInitialized), w).
Proof. intros. unfold Simplify. after_check nil_or_no_handle_usable. Qed.

Lemma closed_Union geometries :
  (2 ≤ length geometries)%nat →
  Union E s geometries w = (Done (None, Some ErrNotInitialized), w).
Proof.
  intros Hlen. unfold Union.
  rewrite !bool_decide_eq_false_2 by lia. refuse.
Qed.

Lemma closed_silent :
  (∀ g, silent (ToWKT E s g) w)
  ∧ (∀ a b, silent (Within E s a b) w ∧ silent (Intersects E s a b) w
            ∧ silent (Distance E s a b) w ∧ silent (Difference E s a b) w)
  ∧ (∀ g x, silent (Buffer E s g x) w ∧ silent (Simplify E s g x) w)
  ∧ (∀ geometries, silent (Union E s geometries) w).
Proof.
  split_and!.
  - intros g. unfold ToWKT. quiet (nil_or_no_handle_silent g).
  - intros a b. split_and!.
    + unfold Within. quiet (nil_or_no_handle2_silent a b).
    + unfold Intersects. quiet (nil_or_no_handle2_silent a b).
    + unfold Distance. quiet (nil_or_no_handle2_silent a b).
    + unfold Difference. quiet (nil_or_no_handle2_silent a b).
  - intros g x. split.
    + unfold Buffer. quiet (nil_or_no_handle_silent g).
    + unfold Simplify. quiet (nil_or_no_handle_silent g).
  - intros [|g [|g' gs]]; [done..|].
    unfold silent. by rewrite closed_Union by (simpl; lia).
Qed.

End Closed.

(** C1, as stated, fails: after [Close], [Union] of a one-element list returns
    its element with no error, and [ToWKT] of a [nil] geometry and [Union] of
    the empty list return their own operand errors. *)
Lemma after_Close_other_results :
  (Union demo_engine 0 [Some 0%nat] (Close 0 world_point).2).1 = Done (Some 0%nat, None)
  ∧ (ToWKT demo_engine 0 None (Close 0 world_point).2).1 =
    Done ("", Some ErrInvalidGeometry)
  ∧ (Union demo_engine 0 [] (Close 0 world_point).2).1 =
    Done (None, Some ErrNoGeometries).
Proof. split_and!; vm_compute; reflexivity. Qed.

(** C1 (amended). After [Close] on a stored service, no public operation
    makes a library call, whatever its operands: each leaves the state as it
    is. [ParseGeometry] returns "GEOS context is not initialized" for every
    input; [ToWKT], [Within], [Intersects], [Distance], [Buffer], [Simplify]
    and [Difference] return it whenever their geometry operands are stored
    geometries with a handle; [Union] returns it for every list of two or
    more entries. *)
Theorem operations_after_Close (E : Engine) (s : loc) (sv : Service) (w : World) :
  services w !! s = Some sv →
  let w1 := (Close s w).2 in
  (∀ input, ParseGeometry E s input w1 = (Done (None, Some ErrNotInitialized), w1))
  ∧ (∀ g, usable w1 g → ToWKT E s g w1 = (Done ("", Some ErrNotInitialized), w1))
  ∧ (∀ a b, usable w1 a → usable w1 b →
       Within E s a b w1 = (Done (false, Some ErrNotInitialized), w1)
       ∧ Intersects E s a b w1 = (Done (false, Some ErrNotInitialized), w1)
       ∧ Distance E s a b w1 = (Done (0%float, Some ErrNotInitialized), w1)
       ∧ Difference E s a b w1 = (Done (None, Some ErrNotInitialized), w1))
  ∧ (∀ g x, usable w1 g →
       Buffer E s g x w1 = (Done (None, Some ErrNotInitialized), w1)
       ∧ Simplify E s g x w1 = (Done (None, Some ErrNotInitialized), w1))
  ∧ (∀ geometries, (2 ≤ length geometries)%nat →
       Union E s geometries w1 = (Done (None, Some ErrNotInitialized), w1))
  ∧ (∀ g, silent (ToWKT E s g) w1)
  ∧ (∀ a b, silent (Within E s a b) w1 ∧ silent (Intersects E s a b) w1
            ∧ silent (Distance E s a b) w1 ∧ silent (Difference E s a b) w1)
  ∧ (∀ g x, silent (Buffer E s g x) w1 ∧ silent (Simplify E s g x) w1)
  ∧ (∀ geometries, silent (Union E s geometries) w1).
Proof.
  intros Hs w1.
  assert (services w1 !! s = Some (mkService None false)) as Hs1.
  { subst w1. rewrite (Close_spec _ _ _ Hs). simpl. apply lookup_insert_eq. }
  clearbody w1.
  split_and!.
  - intros. by eapply closed_ParseGeometry.
  - intros. by eapply closed_ToWKT.
  - intros. split_and!;
      [by eapply closed_Within | by eapply closed_Intersects
      | by eapply closed_Distance | by eapply closed_Difference].
  - intros. split; [by eapply closed_Buffer | by eapply closed_Simplify].
  - intros. by eapply closed_Union.
  - by eapply closed_silent.
  - by eapply closed_silent.
  - by eapply closed_silent.
  - by eapply closed_silent.
Qed.

Lemma operations_after_Close_witness :
  ParseGeometry demo_engine 0 point_input (Close 0 world_point).2 =
    (Done (None, Some ErrNotInitialized), (Close 0 world_point).2)
  ∧ Union demo_engine 0 [Some 0%nat; Some 0%nat] (Close 0 world_point).2 =
    (Done (None, Some ErrNotInitialized), (Close 0 world_point).2)
  ∧ silent (ToWKT demo_engine 0 None) (Close 0 world_point).2.
Proof.
  assert (services world_point !! 0%nat = Some (mkService (Some 1000%nat) true))
    as Hs by (vm_compute; reflexivity).
  destruct (operations_after_Close demo_engine 0 _ world_point Hs)
    as (Hparse & _ & _ & _ & Hunion & Hquiet & _).
  split_and!; [apply Hparse | apply Hunion; simpl; lia | apply Hquiet].
Defined.

(** ** Null operands *)

Lemma null_operand_mono w w' g :
  geometries w ⊆ geometries w' → null_operand w g → null_operand w' g.
Proof.
  intros Hsub [-> | (p & gv & -> & Hg & Hh)]; [by left | right].
  exists p, gv. split_and!; [done | | done].
  by eapply lookup_weaken.
Qed.

Lemma union_loop_skip E s ctx bad after : ∀ before result w,
  null_operand w bad →
  union_loop E s ctx result (before ++ bad :: after) w =
  union_loop E s ctx result (before ++ after) w.
Proof.
  induction before as [|gi before IH]; intros result w Hbad.
  - simpl. unfold bind. by rewrite (nil_or_no_handle_null _ _ Hbad).
  - cbn [app union_loop]. unfold bind.
    pose proof (nil_or_no_handle_silent gi w) as Hq. unfold silent in Hq.
    destruct (nil_or_no_handle gi w) as [[skip|] w1]; simpl in Hq; subst w1; [|done].
    destruct skip; [by apply IH|].
    pose proof (handle_of_silent result w) as Hq. unfold silent in Hq.
    destruct (handle_of result w) as [[hr|] w1]; simpl in Hq; subst w1; [|done].
    pose proof (handle_of_silent gi w) as Hq. unfold silent in Hq.
    destruct (handle_of gi w) as [[hi|] w1]; simpl in Hq; subst w1; [|done].
    unfold C_GEOSUnion_r, invoke.
    case_bool_decide; [done|].
    unfold newGeometry. case_bool_decide; [done|].
    unfold bind, alloc_geometry, ret. apply IH.
    eapply null_operand_mono; [|done]. simpl.
    apply insert_subseteq, not_elem_of_dom, is_fresh.
Qed.

(** C2, as stated, fails for [Union]: a [nil] entry after the first is
    skipped, the union of a geometry and [nil] on a live service returns that
    geometry and no error. *)
Lemma Union_nil_entry_no_error :
  Union demo_engine 0 [Some 0%nat; None] world_point =
  (Done (Some 0%nat, None), world_point).
Proof. vm_compute. reflexivity. Qed.

(** C2 (amended). [ToWKT], [Buffer], [Simplify], [Within], [Intersects],
    [Distance] and [Difference] return "invalid geometry" and leave the state
    as it is, so make no library call, when a geometry operand is [nil] or has
    no handle, whether or not the service is live. For [Union]: a
    one-element list whose element is [nil] or has no handle is returned as
    it is, with no error and the state as it is; and on a live service an
    entry after the first that is [nil] or has no handle is skipped, the
    result being that of the list without it. *)
Theorem null_operands (E : Engine) (s : loc) (w : World) :
  (∀ g, null_operand w g →
     ToWKT E s g w = (Done ("", Some ErrInvalidGeometry), w))
  ∧ (∀ g x, null_operand w g →
       Buffer E s g x w = (Done (None, Some ErrInvalidGeometry), w)
       ∧ Simplify E s g x w = (Done (None, Some ErrInvalidGeometry), w))
  ∧ (∀ a b, allocated w a → allocated w b →
       null_operand w a ∨ null_operand w b →
       Within E s a b w = (Done (false, Some ErrInvalidGeometry), w)
       ∧ Intersects E s a b w = (Done (false, Some ErrInvalidGeometry), w)
       ∧ Distance E s a b w = (Done (0%float, Some ErrInvalidGeometry), w)
       ∧ Difference E s a b w = (Done (None, Some ErrInvalidGeometry), w))
  ∧ (∀ g, null_operand w g → Union E s [g] w = (Done (g, None), w))
  ∧ (∀ sv first before bad after,
       services w !! s = Some sv → context sv ≠ None → null_operand w bad →
       Union E s (first :: before ++ bad :: after) w =
       Union E s (first :: before ++ after) w).
Proof.
  split_and!.
  - intros g Hg. unfold ToWKT, bind. by rewrite nil_or_no_handle_null.
  - intros g x Hg. unfold Buffer, Simplify, bind.
    by rewrite nil_or_no_handle_null.
  - intros a b Ha Hb Hnull. unfold Within, Intersects, Distance, Difference, bind.
    by rewrite nil_or_no_handle2_null.
  - done.
  - intros sv first before bad after Hs Hctx Hbad. unfold Union.
    rewrite !(bool_decide_eq_false_2 (length (first :: before ++ bad :: after) = _))
      by (simpl; rewrite length_app; simpl; lia).
    rewrite (bool_decide_eq_false_2 (length (first :: before ++ after) = 0%nat))
      by done.
    unfold bind. rewrite (load_service_Some _ _ _ Hs).
    rewrite bool_decide_eq_false_2 by done. cbn [lookup list_lookup mjoin drop].
    simpl. rewrite !drop_0, union_loop_skip by done.
    case_bool_decide as Hlen.
    + destruct before, after; simplify_eq/=. done.
    + rewrite (load_service_Some _ _ _ Hs).
      by rewrite bool_decide_eq_false_2.
Qed.

Lemma null_operands_witness :
  ToWKT demo_engine 0 None world_point = (Done ("", Some ErrInvalidGeometry), world_point)
  ∧ Within demo_engine 0 (Some 0%nat) None world_point =
    (Done (false, Some ErrInvalidGeometry), world_point)
  ∧ Union demo_engine 0 [Some 0%nat; Some 0%nat; None] world_point =
    Union demo_engine 0 [Some 0%nat; Some 0%nat] world_point.
Proof.
  destruct (null_operands demo_engine 0 world_point)
    as (HToWKT & _ & Hbinary & _ & Hunion).
  assert (null_operand world_point None) as Hnil by (by left).
  split_and!.
  - by apply HToWKT.
  - apply Hbinary; [|done|by right].
    intros p [= <-]. vm_compute. eauto.
  - apply (Hunion (mkService (Some 1000%nat) true) (Some 0%nat) [Some 0%nat] None []);
      [vm_compute; reflexivity | discriminate | exact Hnil].
Defined.

(** * Further properties of the GeoJSON conversion and of [ValidateGeometry] *)

Lemma geoJSONToWKT_error_text geoType coords :
  (geoJSONToWKT geoType coords).2 ≠ None → (geoJSONToWKT geoType coords).1 = "".
Proof. unfold geoJSONToWKT. repeat case_match; simplify_eq/=; done. Qed.

Lemma convertible_iff geoType coords :
  (geoJSONToWKT geoType coords).2 = None ↔ convertible geoType coords.
Proof.
  split.
  - unfold geoJSONToWKT, convertible, extractable. intros H.
    repeat (case_bool_decide || case_match); simplify_eq/=.
    + left. split; [done|].
      match goal with H : assert_slice ?c = Some ?l |- _ =>
        destruct c; simplify_eq/=; destruct l as [|[] [|[] ?]]; simplify_eq/= end.
      by eexists _, _, _.
    + right; left. split; [done|].
      match goal with H : assert_slice ?c = Some ?l |- _ =>
        destruct c; simplify_eq/=; destruct l as [|[] ?]; simplify_eq/= end.
      by eexists _, _.
    + right; right. split; [done|].
      match goal with H : assert_slice ?c = Some ?l |- _ =>
        destruct c; simplify_eq/= end.
      by eexists.
  - intros [[-> (x & y & more & ->)] | [[-> (ring & holes & -> & Hlen)]
                                       | [-> (l & -> & Hlen)]]].
    + done.
    + by rewrite polygon_text.
    + by rewrite linestring_text.
Qed.

(** X1. [geoJSONToWKT] succeeds exactly on a Point whose coordinates are an
    extractable pair, a Polygon whose first ring has at least 4 elements and
    a LineString of at least 2 elements; in every other case it returns an
    error together with the empty text. *)
Theorem geoJSONToWKT_succeeds_iff (geoType : string) (coords : any) :
  ((geoJSONToWKT geoType coords).2 = None ↔ convertible geoType coords)
  ∧ ((geoJSONToWKT geoType coords).2 ≠ None → (geoJSONToWKT geoType coords).1 = "").
Proof.
  split; [apply convertible_iff | apply geoJSONToWKT_error_text].
Qed.

Lemma coord_text_first_two i coord :
  coord_text i (first_two coord) = coord_text i coord.
Proof.
  unfold coord_text, append_coord.
  by destruct coord as [| | | | |[|a [|b more]]| |].
Qed.

Lemma emitted_first_two coords : ∀ i,
  emitted i (first_two <$> coords) = emitted i coords.
Proof.
  induction coords as [|c coords IH]; intros i; [done|].
  cbn [fmap list_fmap emitted]. by rewrite coord_text_first_two, IH.
Qed.

(** X2. Whatever follows the first two elements of a coordinate is ignored
    (a third element such as an altitude is dropped): the conversion of a
    Point, of a LineString and of a Polygon gives the same result when every
    coordinate is cut down to its first two elements; for a Polygon the
    other rings are ignored as well. *)
Theorem extra_elements_ignored (coord : any) (coords holes : list any) :
  geoJSONToWKT "Point" (first_two coord) = geoJSONToWKT "Point" coord
  ∧ geoJSONToWKT "LineString" (VSlice (first_two <$> coords)) =
    geoJSONToWKT "LineString" (VSlice coords)
  ∧ geoJSONToWKT "Polygon" (VSlice [VSlice (first_two <$> coords)]) =
    geoJSONToWKT "Polygon" (VSlice (VSlice coords :: holes)).
Proof.
  split_and!.
  - by destruct coord as [| | | | |[|a [|b more]]| |].
  - destruct (decide (2 ≤ length coords)%nat) as [Hlen|Hlen].
    + rewrite !linestring_text by (by rewrite ?length_fmap).
      by rewrite emitted_first_two.
    + unfold geoJSONToWKT. simpl.
      by rewrite !bool_decide_eq_false_2 by (by rewrite ?length_fmap).
  - destruct (decide (4 ≤ length coords)%nat) as [Hlen|Hlen].
    + rewrite !polygon_text by (by rewrite ?length_fmap).
      by rewrite emitted_first_two.
    + unfold geoJSONToWKT. simpl.
      by rewrite !bool_decide_eq_false_2 by (by rewrite ?length_fmap).
Qed.

(** X3. Coordinates that are not a [[]interface{}] value are rejected for
    every geometry type: statically typed slices such as [[]float64] do not
    pass the type assertion. *)
Theorem typed_slices_rejected (geoType : string) (coords : any) :
  (∀ l, coords ≠ VSlice l) →
  (geoJSONToWKT geoType coords).1 = ""
  ∧ (geoJSONToWKT geoType coords).2 ≠ None.
Proof.
  intros Hnot.
  assert ((geoJSONToWKT geoType coords).2 ≠ None) as Herr.
  { destruct coords; try (unfold geoJSONToWKT; repeat case_match; by simplify_eq/=).
    by destruct (Hnot elems). }
  split; [by apply geoJSONToWKT_error_text | done].
Qed.

Lemma typed_slices_rejected_witness :
  geoJSONToWKT "Point" (VFloat64Slice [1; 2]%float) = ("", Some ErrInvalidPoint).
Proof.
  assert (∀ l, VFloat64Slice [1; 2]%float ≠ VSlice l) as Hnot by done.
  destruct (typed_slices_rejected "Point" _ Hnot) as [Htext Herr].
  destruct (geoJSONToWKT "Point" (VFloat64Slice [1; 2]%float)) as [t e] eqn:Heq.
  vm_compute in Heq. by simplify_eq.
Defined.

Lemma emitted_nothing coords : ∀ i,
  Forall (λ c, ¬ extractable c) coords → emitted i coords = "".
Proof.
  induction coords as [|c coords IH]; intros i Hall; [done|].
  inversion_clear Hall. simpl.
  by rewrite coord_text_not_extractable, IH.
Qed.

(** X4. When no coordinate of a LineString or of a Polygon's first ring is
    extractable, the conversion still succeeds and emits a text without any
    coordinate, [LINESTRING()] or [POLYGON(())]. *)
Theorem no_extractable_coordinate (coords holes : list any) :
  Forall (λ c, ¬ extractable c) coords →
  ((2 ≤ length coords)%nat →
     geoJSONToWKT "LineString" (VSlice coords) = ("LINESTRING()", None))
  ∧ ((4 ≤ length coords)%nat →
     geoJSONToWKT "Polygon" (VSlice (VSlice coords :: holes)) = ("POLYGON(())", None)).
Proof.
  intros Hall. split; intros Hlen.
  - by rewrite linestring_text, emitted_nothing.
  - by rewrite polygon_text, emitted_nothing.
Qed.

Lemma no_extractable_coordinate_witness :
  geoJSONToWKT "LineString" (VSlice [VFloat64Slice [0; 0]%float; VFloat64Slice [1; 1]%float]) =
  ("LINESTRING()", None).
Proof.
  apply (no_extractable_coordinate
           [VFloat64Slice [0; 0]%float; VFloat64Slice [1; 1]%float] []).
  - repeat constructor; intros (x & y & more & Heq); discriminate Heq.
  - simpl. lia.
Defined.

(** X5. The separator is chosen by the position in the input, not by what
    has been written: when the first coordinate is not extractable and the
    second is a pair, the text starts with a separator, [LINESTRING(, x y]. *)
Theorem first_coordinate_omitted (bad : any) (xy : float64 * float64)
    (rest holes : list any) :
  ¬ extractable bad →
  geoJSONToWKT "LineString" (VSlice (bad :: pair_coord xy :: rest)) =
    ("LINESTRING(, " +:+ pair_text xy +:+ emitted 2 rest +:+ ")", None)
  ∧ ((2 ≤ length rest)%nat →
     geoJSONToWKT "Polygon" (VSlice (VSlice (bad :: pair_coord xy :: rest) :: holes)) =
       ("POLYGON((, " +:+ pair_text xy +:+ emitted 2 rest +:+ "))", None)).
Proof.
  intros Hbad.
  assert (emitted 0 (bad :: pair_coord xy :: rest) =
          ", " +:+ pair_text xy +:+ emitted 2 rest) as Hem.
  { cbn [emitted]. rewrite coord_text_not_extractable by done.
    rewrite coord_text_pair, bool_decide_eq_true_2 by lia.
    by rewrite append_nil_l, append_assoc. }
  split.
  - rewrite linestring_text by (simpl; lia). rewrite Hem, !append_assoc. done.
  - intros Hlen. rewrite polygon_text by (simpl; lia).
    rewrite Hem, !append_assoc. done.
Qed.

Lemma first_coordinate_omitted_witness :
  geoJSONToWKT "LineString"
    (VSlice [VNil; pair_coord (1, 1)%float; pair_coord (2, 2)%float]) =
  ("LINESTRING(, 1.000000 1.000000, 2.000000 2.000000)", None).
Proof.
  assert (¬ extractable VNil) as Hbad.
  { intros (x & y & more & Heq). discriminate Heq. }
  destruct (first_coordinate_omitted VNil (1, 1)%float [pair_coord (2, 2)%float] [] Hbad)
    as [Hline _].
  rewrite Hline. vm_compute. reflexivity.
Defined.

(** ** [ValidateGeometry] *)

Lemma substring_prefix (keyword : string) : ∀ wkt,
  ((String.length keyword ≤ String.length wkt)%nat
   ∧ String.substring 0 (String.length keyword) wkt = keyword)
  ↔ ∃ rest, wkt = keyword +:+ rest.
Proof.
  induction keyword as [|a keyword IH]; intros wkt.
  - split; [intros _; by exists wkt | intros _; split; [simpl; lia | by destruct wkt]].
  - destruct wkt as [|b wkt]; simpl.
    + split; [intros [? _]; lia | intros [rest Heq]; discriminate Heq].
    + split.
      * intros [Hlen Hsub]. injection Hsub as -> Hsub.
        destruct (proj1 (IH wkt)) as [rest ->]; [split; [lia | done]|].
        by exists rest.
      * intros [rest Heq]. rewrite append_cons in Heq. injection Heq as -> ->.
        destruct (proj2 (IH (keyword +:+ rest))) as [Hlen Hsub]; [by eexists|].
        split; [lia | by rewrite Hsub].
Qed.

Lemma validTypes_loop_spec wkt types :
  validTypes_loop wkt types = true ↔
  ∃ keyword rest, keyword ∈ types ∧ wkt = keyword +:+ rest.
Proof.
  induction types as [|validType types IH]; simpl.
  - split; [done | intros (? & ? & Hin & _); by apply elem_of_nil in Hin].
  - destruct (bool_decide _ && bool_decide _) eqn:Hcond.
    + apply andb_true_iff in Hcond as [Hlen Hsub].
      apply bool_decide_eq_true in Hlen, Hsub.
      split; [intros _ | done].
      destruct (proj1 (substring_prefix validType wkt)) as [rest ->]; [done|].
      exists validType, rest. split; [apply elem_of_cons; by left | done].
    + rewrite IH. split.
      * intros (k & rest & Hin & ->). exists k, rest.
        split; [apply elem_of_cons; by right | done].
      * intros (k & rest & Hin & ->). apply elem_of_cons in Hin as [-> | Hin].
        -- destruct (proj2 (substring_prefix validType (validType +:+ rest)))
             as [Hlen Hsub]; [by eexists|].
           apply andb_false_iff in Hcond as [Hc | Hc];
             apply bool_decide_eq_false in Hc; done.
        -- by exists k, rest.
Qed.

Lemma geojson_keys_check (gj : option (gmap string any)) :
  match gj with
  | Some geoJSON =>
      if bool_decide (geoJSON !! "type" = None) then
        Some "invalid GeoJSON: missing type field"
      else if bool_decide (geoJSON !! "coordinates" = None) then
        Some "invalid GeoJSON: missing coordinates field"
      else None
  | None => None
  end = None ↔
  ∀ geoJSON, gj = Some geoJSON →
    is_Some (geoJSON !! "type") ∧ is_Some (geoJSON !! "coordinates").
Proof.
  destruct gj as [geoJSON|]; [|split; [intros _ ? [=] | reflexivity]].
  destruct (geoJSON !! "type") as [t|] eqn:Ht;
    destruct (geoJSON !! "coordinates") as [c|] eqn:Hc; simpl.
  - split; [|reflexivity]. intros _ ? [= <-]. rewrite Ht, Hc. eauto.
  - split; [intros [=]|]. intros H. destruct (H _ eq_refl) as [_ [? Hx]].
    rewrite Hc in Hx. discriminate Hx.
  - split; [intros [=]|]. intros H. destruct (H _ eq_refl) as [[? Hx] _].
    rewrite Ht in Hx. discriminate Hx.
  - split; [intros [=]|]. intros H. destruct (H _ eq_refl) as [[? Hx] _].
    rewrite Ht in Hx. discriminate Hx.
Qed.

Lemma wkt_keyword_check (wkt : string) :
  (if bool_decide (wkt ≠ "") then
     if bool_decide (String.length wkt = 0%nat) then Some ErrEmptyWKT
     else if negb (validTypes_loop wkt validTypes) then
       Some "invalid WKT: must start with a valid geometry type"
     else None
   else None) = None ↔
  (wkt ≠ "" → starts_with_keyword wkt).
Proof.
  unfold starts_with_keyword. rewrite <- validTypes_loop_spec.
  case_bool_decide as Hwkt; [|split; [intros _ ?; contradiction | reflexivity]].
  rewrite bool_decide_eq_false_2 by (by rewrite length_zero_empty).
  destruct (validTypes_loop wkt validTypes); cbn [negb].
  - split; [intros _ _; reflexivity | reflexivity].
  - split; [intros [=] | intros H; specialize (H Hwkt); discriminate H].
Qed.

Lemma ValidateGeometry_None_iff (input : GeometryInput) :
  ValidateGeometry input = None ↔
  (WKT input ≠ "" ∨ GeoJSON input ≠ None)
  ∧ (WKT input ≠ "" → starts_with_keyword (WKT input))
  ∧ (∀ geoJSON, GeoJSON input = Some geoJSON →
       is_Some (geoJSON !! "type") ∧ is_Some (geoJSON !! "coordinates")).
Proof.
  unfold ValidateGeometry.
  rewrite <- wkt_keyword_check, <- geojson_keys_check.
  destruct (bool_decide (WKT input = "") && bool_decide (GeoJSON input = None))
    eqn:Hnone.
  - apply andb_true_iff in Hnone as [H1 H2].
    apply bool_decide_eq_true in H1, H2.
    split; [intros [=]|]. intros ([?|?] & _); contradiction.
  - assert (WKT input ≠ "" ∨ GeoJSON input ≠ None) as Hsome.
    { apply andb_false_iff in Hnone as [H|H]; apply bool_decide_eq_false in H; auto. }
    cbv zeta.
    match goal with |- context [match ?e with Some _ => _ | None => _ end = None ↔ _] =>
      destruct e as [err|] eqn:Hw end.
    + split; [intros [=]|]. intros (_ & [=] & _).
    + split; [intros HJ; split_and!; [exact Hsome | reflexivity | exact HJ]|].
      intros (_ & _ & HJ). exact HJ.
Qed.

(** X6. [ValidateGeometry] accepts an input exactly when it has a text or a
    GeoJSON object, its text, if any, begins with one of the seven keywords,
    and its GeoJSON object, if any, has the keys "type" and "coordinates".
    Nothing after the keyword and nothing about the values under the two
    keys is looked at. *)
Theorem ValidateGeometry_accepts_iff (input : GeometryInput) :
  ValidateGeometry input = None ↔
  (WKT input ≠ "" ∨ GeoJSON input ≠ None)
  ∧ (WKT input ≠ "" → starts_with_keyword (WKT input))
  ∧ (∀ geoJSON, GeoJSON input = Some geoJSON →
       is_Some (geoJSON !! "type") ∧ is_Some (geoJSON !! "coordinates")).
Proof.
  split; intros H; by apply ValidateGeometry_None_iff.
Qed.

Lemma ValidateGeometry_accepts_iff_witness :
  ValidateGeometry (mkGeometryInput "POINT(1)" None 0) = None.
Proof.
  apply (ValidateGeometry_accepts_iff (mkGeometryInput "POINT(1)" None 0)).
  split_and!.
  - left. discriminate.
  - intros _. exists "POINT", "(1)". split; [|reflexivity].
    apply elem_of_cons. by left.
  - intros ? [=].
Defined.

Lemma geoJSONToWKT_starts_with_keyword geoType coords wkt :
  geoJSONToWKT geoType coords = (wkt, None) → starts_with_keyword wkt.
Proof.
  intros Hconv.
  assert (convertible geoType coords) as Hc.
  { apply convertible_iff. by rewrite Hconv. }
  destruct Hc as [[-> (x & y & more & ->)] | [[-> (ring & holes & -> & Hlen)]
                                            | [-> (l & -> & Hlen)]]].
  - injection Hconv as <-. eexists "POINT", _.
    split; [|reflexivity]. apply elem_of_cons. by left.
  - rewrite polygon_text in Hconv by done. injection Hconv as <-.
    eexists "POLYGON", _. split; [|reflexivity].
    do 2 (apply elem_of_cons; right). apply elem_of_cons. by left.
  - rewrite linestring_text in Hconv by done. injection Hconv as <-.
    eexists "LINESTRING", _. split; [|reflexivity].
    apply elem_of_cons; right. apply elem_of_cons. by left.
Qed.

(** X7. Every text [geoJSONToWKT] produces is accepted by [ValidateGeometry]
    as a WKT input. *)
Theorem converted_text_validates (geoType : string) (coords : any)
    (wkt : string) (srid : Z) :
  geoJSONToWKT geoType coords = (wkt, None) →
  ValidateGeometry (mkGeometryInput wkt None srid) = None.
Proof.
  intros Hconv. apply ValidateGeometry_None_iff. simpl. split_and!.
  - left. by eapply geoJSONToWKT_nonempty.
  - intros _. by eapply geoJSONToWKT_starts_with_keyword.
  - intros ? [=].
Qed.

Lemma converted_text_validates_witness :
  ValidateGeometry (mkGeometryInput "POINT(1.000000 2.000000)" None 0) = None.
Proof.
  apply (converted_text_validates "Point" (pair_coord (1, 2)%float)).
  vm_compute. reflexivity.
Defined.

(** X8. A GeoJSON-only input from which [ParseGeometry] obtains a text to
    parse is accepted by [ValidateGeometry]. *)
Theorem normalised_geojson_validates (input : GeometryInput) (wkt : string) :
  WKT input = "" → input_wkt input = (wkt, None) →
  ValidateGeometry input = None.
Proof.
  intros Hwkt Hin. apply ValidateGeometry_None_iff.
  unfold input_wkt in Hin. rewrite Hwkt in Hin |- *.
  rewrite bool_decide_eq_false_2 in Hin by (intros H; by apply H).
  destruct (GeoJSON input) as [geoJSON|]; [|discriminate Hin].
  split_and!; [by right | done |].
  intros ? [= <-].
  destruct (geoJSON !! "type") as [t|]; [|discriminate Hin].
  destruct (geoJSON !! "coordinates") as [c|];
    [eauto | by destruct (assert_string (Some t))].
Qed.

Lemma normalised_geojson_validates_witness :
  ValidateGeometry
    (mkGeometryInput ""
       (Some {["type" := VString "Point"; "coordinates" := pair_coord (1, 2)%float]}) 0)
  = None.
Proof.
  apply (normalised_geojson_validates _ "POINT(1.000000 2.000000)");
    [reflexivity | vm_compute; reflexivity].
Defined.

Lemma ParseGeometry_wkt_first E s w wkt geoJSON geoJSON' srid srid' :
  wkt ≠ "" →
  ParseGeometry E s (mkGeometryInput wkt geoJSON srid) w =
  ParseGeometry E s (mkGeometryInput wkt geoJSON' srid') w.
Proof.
  intros Hwkt. unfold ParseGeometry, input_wkt. simpl.
  by rewrite !bool_decide_eq_true_2 by done.
Qed.

(** X9. The SRID never influences [ParseGeometry] or [ValidateGeometry], and
    when the text is not empty [ParseGeometry] does not look at the GeoJSON
    object at all. *)
Theorem ParseGeometry_ignores (E : Engine) (s : loc) (w : World)
    (wkt : string) (geoJSON geoJSON' : option (gmap string any)) (srid srid' : Z) :
  ParseGeometry E s (mkGeometryInput wkt geoJSON srid) w =
    ParseGeometry E s (mkGeometryInput wkt geoJSON srid') w
  ∧ ValidateGeometry (mkGeometryInput wkt geoJSON srid) =
    ValidateGeometry (mkGeometryInput wkt geoJSON srid')
  ∧ (wkt ≠ "" →
     ParseGeometry E s (mkGeometryInput wkt geoJSON srid) w =
     ParseGeometry E s (mkGeometryInput wkt geoJSON' srid') w).
Proof.
  split_and!; [done | done | apply ParseGeometry_wkt_first].
Qed.

Lemma ParseGeometry_ignores_witness :
  ParseGeometry demo_engine 0
    (mkGeometryInput "POINT(1 1)" (Some {["type" := VString "Polygon"]}) 4326) world_service =
  ParseGeometry demo_engine 0 point_input world_service.
Proof.
  destruct (ParseGeometry_ignores demo_engine 0 world_service "POINT(1 1)"
              (Some {["type" := VString "Polygon"]}) None 4326 0) as (_ & _ & H).
  apply H. discriminate.
Defined.

(** X10. [ValidateGeometry] checks both fields while [ParseGeometry] reads
    only the text when there is one: an input whose text begins with a
    keyword but whose GeoJSON object lacks "type" or "coordinates" is rejected
    by [ValidateGeometry], and [ParseGeometry] treats it as the text alone. *)
Theorem validate_parse_disagree (E : Engine) (s : loc) (w : World)
    (wkt : string) (geoJSON : gmap string any) (srid : Z) :
  starts_with_keyword wkt →
  geoJSON !! "type" = None ∨ geoJSON !! "coordinates" = None →
  ValidateGeometry (mkGeometryInput wkt None srid) = None
  ∧ ValidateGeometry (mkGeometryInput wkt (Some geoJSON) srid) ≠ None
  ∧ ParseGeometry E s (mkGeometryInput wkt (Some geoJSON) srid) w =
    ParseGeometry E s (mkGeometryInput wkt None srid) w.
Proof.
  intros Hkw Hkeys.
  assert (wkt ≠ "") as Hwkt.
  { destruct Hkw as (k & rest & Hin & ->). apply append_nonempty_l.
    intros ->. unfold validTypes in Hin.
    repeat (apply elem_of_cons in Hin as [Hin|Hin]; [discriminate Hin|]).
    by apply elem_of_nil in Hin. }
  split_and!.
  - apply ValidateGeometry_None_iff. simpl.
    split_and!; [by left | done | intros ? [=]].
  - intros Hok. apply ValidateGeometry_None_iff in Hok as (_ & _ & Hk).
    destruct (Hk _ eq_refl) as [[? Ht] [? Hc]]. destruct Hkeys; congruence.
  - by apply ParseGeometry_wkt_first.
Qed.

Lemma validate_parse_disagree_witness :
  ValidateGeometry (mkGeometryInput "POINT(1 1)" (Some ∅) 0) ≠ None
  ∧ ParseGeometry demo_engine 0 (mkGeometryInput "POINT(1 1)" (Some ∅) 0) world_service =
    ParseGeometry demo_engine 0 point_input world_service.
Proof.
  assert (starts_with_keyword "POINT(1 1)") as Hkw.
  { exists "POINT", "(1 1)". split; [apply elem_of_cons; by left | reflexivity]. }
  destruct (validate_parse_disagree demo_engine 0 world_service "POINT(1 1)" ∅ 0 Hkw)
    as (_ & Hv & Hp); [by left|].
  split; [exact Hv | exact Hp].
Defined.

(** * Footprint of the operations *)

Section Footprint.

Context (P : call → Prop) (s : loc).

Lemma footprint_silent {A} (m : M A) w : silent m w → footprint P s m w.
Proof.
  unfold silent, footprint. intros ->. split_and!; [done | done | auto |].
  exists []. by rewrite app_nil_r.
Qed.

Lemma footprint_ret {A} (a : A) w : footprint P s (ret a) w.
Proof. by apply footprint_silent. Qed.

Lemma footprint_bind {A B} (m : M A) (k : A → M B) w :
  footprint P s m w →
  (∀ a w1, m w = (Done a, w1) → footprint P s (k a) w1) →
  footprint P s (bind m k) w.
Proof.
  intros Hm Hk. unfold footprint, bind in *.
  destruct (m w) as [[a|msg] w1] eqn:Hrun; [|done].
  specialize (Hk a w1 eq_refl). simpl in Hm.
  destruct Hm as (HS1 & Hold1 & Hnew1 & new1 & Hc1 & HP1).
  destruct Hk as (HS2 & Hold2 & Hnew2 & new2 & Hc2 & HP2).
  split_and!.
  - by rewrite HS2.
  - auto.
  - intros p gv Hp. destruct (Hnew2 p gv Hp) as [Hin1 | Hfresh]; [auto|].
    right. by rewrite <- HS1.
  - exists (new1 ++ new2). split; [by rewrite Hc2, Hc1, app_assoc|].
    apply Forall_app. split; [done|]. by rewrite <- HS1.
Qed.

Lemma footprint_invoke {A} (c : call) (answer : list call → A) ghost w :
  on_live_context (services w) s c → P c →
  footprint P s (invoke c answer ghost) w.
Proof.
  intros Hctx HP. unfold footprint, invoke. simpl.
  split_and!; [done | done | auto |].
  exists [c]. split; [done|]. by constructor.
Qed.

Lemma footprint_newGeometry (h : cptr) w :
  is_Some (services w !! s) → footprint P s (newGeometry s h) w.
Proof.
  intros Hs. unfold newGeometry. case_bool_decide as Hh; [apply footprint_ret|].
  unfold footprint, bind, alloc_geometry, ret. simpl.
  assert (geometries w !! fresh (dom (geometries w)) = None) as Hfresh
    by apply not_elem_of_dom, is_fresh.
  split_and!.
  - done.
  - intros p gv Hp. rewrite lookup_insert_ne; [done|]. intros <-. congruence.
  - intros p gv Hp. apply lookup_insert_Some in Hp as [[<- <-] | [_ Hp]]; [|by left].
    right. simpl. split_and!; [done | done | | done].
    by apply not_eq_None_Some.
  - exists []. by rewrite app_nil_r.
Qed.

End Footprint.

Lemma footprint_weaken (P Q : call → Prop) s {A} (m : M A) w :
  (∀ x, P x → Q x) → footprint P s m w → footprint Q s m w.
Proof.
  intros HPQ (HS & Hold & Hnew & new & Hc & HP).
  split_and!; [done..|]. exists new. split; [done|].
  eapply Forall_impl; [done|]. intros x [? ?]. auto.
Qed.

(** What the results of the helper computations tell. *)
Lemma load_service_silent s w : silent (load_service s) w.
Proof. unfold silent, load_service. by destruct (services w !! s). Qed.

Lemma load_service_Done s sv w w1 :
  load_service s w = (Done sv, w1) → w1 = w ∧ services w !! s = Some sv.
Proof. unfold load_service. destruct (services w !! s); by intros [= <- <-]. Qed.

Lemma nil_or_no_handle_Done_false g w w1 :
  nil_or_no_handle g w = (Done false, w1) → w1 = w ∧ usable w g.
Proof.
  unfold nil_or_no_handle, bind, load_geometry, ret, usable.
  case_bool_decide; [done|]. destruct g as [p|]; [simpl|done].
  destruct (geometries w !! p) as [gv|] eqn:Hg; [|done].
  case_bool_decide; intros [= <-]. split; [done|]. by exists p, gv.
Qed.

Lemma nil_or_no_handle2_Done_false a b w w1 :
  nil_or_no_handle2 a b w = (Done false, w1) → w1 = w ∧ usable w a ∧ usable w b.
Proof.
  unfold nil_or_no_handle2, bind, load_geometry, ret, usable.
  destruct a as [pa|], b as [pb|]; try done.
  rewrite !bool_decide_eq_false_2 by done. simpl.
  destruct (geometries w !! pa) as [av|] eqn:Ha; [|done].
  case_bool_decide; [done|].
  destruct (geometries w !! pb) as [bv|] eqn:Hb; [|done].
  case_bool_decide; intros [= <-].
  split_and!; [done | by exists pa, av | by exists pb, bv].
Qed.

Lemma handle_of_usable g w :
  usable w g → ∃ h, handle_of g w = (Done (Some h), w).
Proof.
  intros (p & gv & -> & Hg & Hh). unfold handle_of, bind, ret.
  rewrite (load_geometry_Some _ _ _ Hg).
  destruct (geom gv) as [h|]; [by exists h | done].
Qed.

Lemma invoke_Done {A} (c : call) (answer : list call → A) ghost w a w1 :
  invoke c answer ghost w = (Done a, w1) →
  a = answer (calls w) ∧ services w1 = services w ∧ geometries w1 = geometries w.
Proof. unfold invoke. by intros [= <- <-]. Qed.

Lemma newGeometry_services s h w : services (newGeometry s h w).2 = services w.
Proof. unfold newGeometry. by case_bool_decide. Qed.

Lemma on_live_context_intro S s sv x :
  S !! s = Some sv → context sv ≠ None →
  lifecycle_call x = false → call_context x = Some (context sv) →
  on_live_context S s x.
Proof.
  intros Hs Hctx Hl Hx. split; [done|].
  destruct (context sv) as [c|] eqn:Hc; [|done]. by exists sv, c.
Qed.

Section OperationFootprints.

Variable E : Engine.
Variables (s : loc) (w : World).

Local Ltac silent_step H := apply footprint_silent; unfold silent; by rewrite H.

Local Ltac live_call Hs Hctx :=
  apply footprint_invoke;
  [ by eapply (on_live_context_intro _ _ _ _ Hs Hctx)
  | repeat constructor; by eauto ].

(** After the operand check of a one-operand operation. *)
Local Ltac unary_prefix g h sv Hs Hctx :=
  apply footprint_bind; [apply footprint_silent, nil_or_no_handle_silent|];
  intros [] ? Hc; [apply footprint_ret|];
  apply nil_or_no_handle_Done_false in Hc as [-> Hg];
  apply footprint_bind; [apply footprint_silent, load_service_silent|];
  intros sv ? [-> Hs]%load_service_Done;
  case_bool_decide as Hctx; [apply footprint_ret|];
  destruct (handle_of_usable _ _ Hg) as [h Hh];
  apply footprint_bind; [silent_step Hh|];
  intros ? ? Hh'; rewrite Hh in Hh'; injection Hh' as <- <-.

(** After the operand check of a two-operand operation. *)
Local Ltac binary_prefix a b ha hb sv Hs Hctx :=
  apply footprint_bind; [apply footprint_silent, nil_or_no_handle2_silent|];
  intros [] ? Hc; [apply footprint_ret|];
  apply nil_or_no_handle2_Done_false in Hc as (-> & Ha & Hb);
  apply footprint_bind; [apply footprint_silent, load_service_silent|];
  intros sv ? [-> Hs]%load_service_Done;
  case_bool_decide as Hctx; [apply footprint_ret|];
  destruct (handle_of_usable _ _ Ha) as [ha Hha];
  destruct (handle_of_usable _ _ Hb) as [hb Hhb];
  apply footprint_bind; [silent_step Hha|];
  intros ? ? Hh'; rewrite Hha in Hh'; injection Hh' as <- <-;
  apply footprint_bind; [silent_step Hhb|];
  intros ? ? Hh'; rewrite Hhb in Hh'; injection Hh' as <- <-.

(** The end of an operation that wraps the handle it got. *)
Local Ltac wrap_result Hs :=
  intros ? w1 (_ & HS1 & _)%invoke_Done;
  case_bool_decide; [apply footprint_ret|];
  apply footprint_bind;
    [apply footprint_newGeometry; rewrite HS1, Hs; by eauto|];
  intros; apply footprint_ret.

Lemma footprint_ToWKT g : footprint handles_present s (ToWKT E s g) w.
Proof.
  unfold ToWKT. unary_prefix g h sv Hs Hctx.
  apply footprint_bind; [live_call Hs Hctx|].
  intros [t|] ? _; apply footprint_ret.
Qed.

Lemma footprint_Within a b : footprint handles_present s (Within E s a b) w.
Proof.
  unfold Within. binary_prefix a b ha hb sv Hs Hctx.
  apply footprint_bind; [live_call Hs Hctx|].
  intros r ? _. case_bool_decide; apply footprint_ret.
Qed.

Lemma footprint_Intersects a b : footprint handles_present s (Intersects E s a b) w.
Proof.
  unfold Intersects. binary_prefix a b ha hb sv Hs Hctx.
  apply footprint_bind; [live_call Hs Hctx|].
  intros r ? _. case_bool_decide; apply footprint_ret.
Qed.

Lemma footprint_Distance a b : footprint handles_present s (Distance E s a b) w.
Proof.
  unfold Distance. binary_prefix a b ha hb sv Hs Hctx.
  apply footprint_bind; [live_call Hs Hctx|].
  intros r ? _. case_bool_decide; apply footprint_ret.
Qed.

Lemma footprint_Buffer g radius : footprint handles_present s (Buffer E s g radius) w.
Proof.
  unfold Buffer. unary_prefix g h sv Hs Hctx.
  apply footprint_bind; [live_call Hs Hctx|]. wrap_result Hs.
Qed.

Lemma footprint_Simplify g tolerance :
  footprint handles_present s (Simplify E s g tolerance) w.
Proof.
  unfold Simplify. unary_prefix g h sv Hs Hctx.
  apply footprint_bind; [live_call Hs Hctx|]. wrap_result Hs.
Qed.

Lemma footprint_Difference a b : footprint handles_present s (Difference E s a b) w.
Proof.
  unfold Difference. binary_prefix a b ha hb sv Hs Hctx.
  apply footprint_bind; [live_call Hs Hctx|]. wrap_result Hs.
Qed.

Lemma footprint_ParseGeometry input :
  footprint handles_present s (ParseGeometry E s input) w.
Proof.
  unfold ParseGeometry.
  apply footprint_bind; [apply footprint_silent, load_service_silent|].
  intros sv ? [-> Hs]%load_service_Done.
  case_bool_decide as Hctx; [apply footprint_ret|].
  destruct (input_wkt input) as [wkt [err|]]; [apply footprint_ret|].
  unfold parse_wkt. case_bool_decide; [apply footprint_ret|].
  apply footprint_bind; [live_call Hs Hctx|].
  intros h w1 (_ & HS1 & _)%invoke_Done.
  case_bool_decide as Hh; [apply footprint_ret|].
  assert (is_Some h) as Hsome by (by apply not_eq_None_Some).
  assert (services w1 !! s = Some sv) as Hs1 by (by rewrite HS1).
  apply footprint_bind; [live_call Hs1 Hctx|].
  intros v w2 (_ & HS2 & _)%invoke_Done.
  assert (services w2 !! s = Some sv) as Hs2 by (by rewrite HS2).
  case_bool_decide.
  - apply footprint_bind; [live_call Hs2 Hctx|]. intros; apply footprint_ret.
  - apply footprint_bind; [apply footprint_newGeometry; by eauto|].
    intros; apply footprint_ret.
Qed.

Lemma footprint_union_loop sv rest : ∀ result w0,
  services w0 !! s = Some sv → context sv ≠ None →
  footprint (λ _, True) s (union_loop E s (context sv) result rest) w0.
Proof.
  induction rest as [|gi rest IH]; intros result w0 Hs Hctx; [apply footprint_ret|].
  cbn [union_loop].
  apply footprint_bind; [apply footprint_silent, nil_or_no_handle_silent|].
  intros skip w1 Hc.
  pose proof (nil_or_no_handle_silent gi w0) as Hq. unfold silent in Hq.
  rewrite Hc in Hq. simpl in Hq. subst w1.
  destruct skip; [by apply IH|].
  apply footprint_bind; [apply footprint_silent, handle_of_silent|].
  intros hr w1 Hr.
  pose proof (handle_of_silent result w0) as Hq. unfold silent in Hq.
  rewrite Hr in Hq. simpl in Hq. subst w1.
  apply footprint_bind; [apply footprint_silent, handle_of_silent|].
  intros hi w1 Hi.
  pose proof (handle_of_silent gi w0) as Hq. unfold silent in Hq.
  rewrite Hi in Hq. simpl in Hq. subst w1.
  apply footprint_bind;
    [apply footprint_invoke; [by eapply (on_live_context_intro _ _ _ _ Hs Hctx) | done]|].
  intros u w1 (_ & HS1 & _)%invoke_Done.
  case_bool_decide; [apply footprint_ret|].
  apply footprint_bind; [apply footprint_newGeometry; rewrite HS1, Hs; by eauto|].
  intros r w2 Hn. apply IH; [|done].
  pose proof (newGeometry_services s u w1) as HS2. rewrite Hn in HS2. simpl in HS2.
  by rewrite HS2, HS1.
Qed.

Lemma footprint_Union geometries : footprint (λ _, True) s (Union E s geometries) w.
Proof.
  unfold Union. repeat (case_bool_decide; [apply footprint_ret|]).
  apply footprint_bind; [apply footprint_silent, load_service_silent|].
  intros sv ? [-> Hs]%load_service_Done.
  case_bool_decide as Hctx; [apply footprint_ret|].
  by apply footprint_union_loop.
Qed.

End OperationFootprints.

(** X11. Whatever its operands and whatever the state, a public operation of
    service [s] changes no service, changes no geometry that is already
    stored, creates only geometries that belong to [s] and have a handle and
    a finalizer, and makes library calls only on the context, not [nil],
    that [s] holds; [ParseGeometry], [ToWKT], [Within], [Intersects],
    [Distance], [Buffer], [Simplify] and [Difference] moreover never pass a
    [NULL] geometry to the library. *)
Theorem operations_footprint (E : Engine) (s : loc) (w : World) :
  (∀ input, footprint handles_present s (ParseGeometry E s input) w)
  ∧ (∀ g, footprint handles_present s (ToWKT E s g) w)
  ∧ (∀ a b, footprint handles_present s (Within E s a b) w
            ∧ footprint handles_present s (Intersects E s a b) w
            ∧ footprint handles_present s (Distance E s a b) w
            ∧ footprint handles_present s (Difference E s a b) w)
  ∧ (∀ g x, footprint handles_present s (Buffer E s g x) w
            ∧ footprint handles_present s (Simplify E s g x) w)
  ∧ (∀ geometries, footprint (λ _, True) s (Union E s geometries) w).
Proof.
  split_and!.
  - apply footprint_ParseGeometry.
  - apply footprint_ToWKT.
  - intros a b. split_and!;
      [apply footprint_Within | apply footprint_Intersects
      | apply footprint_Distance | apply footprint_Difference].
  - intros g x. split; [apply footprint_Buffer | apply footprint_Simplify].
  - apply footprint_Union.
Qed.

(** * Invariants of the reachable states *)

Lemma Close_missing s w :
  services w !! s = None → Close s w = (Panic nil_dereference, w).
Proof. intros Hs. unfold Close, bind, load_service. by rewrite Hs. Qed.

Lemma destroy_missing g w :
  geometries w !! g = None → destroy g w = (Panic nil_dereference, w).
Proof. intros Hg. unfold destroy, bind, load_geometry. simpl. by rewrite Hg. Qed.

Lemma footprint_quiet_step P s {A} (m : M A) w :
  footprint P s m w → quiet_step w (m w).2.
Proof.
  intros (HS & _ & _ & new & Hc & HP). split; [done|].
  exists new. split; [done|]. eapply Forall_impl; [done|].
  intros x [? _]. by exists s.
Qed.

Lemma footprint_owned P s {A} (m : M A) w :
  owned w → footprint P s m w → owned (m w).2.
Proof.
  intros Hw (HS & _ & Hnew & _) p gv Hp. rewrite HS.
  destruct (Hnew p gv Hp) as [Hold | (Hsv & Hs & _)]; [by eapply Hw|].
  by exists s.
Qed.

Lemma destroy_cases g w :
  owned w →
  (geometries w !! g = None ∧ destroy g w = (Panic nil_dereference, w))
  ∨ (∃ gv h sp sv,
       geometries w !! g = Some gv ∧ geom gv = Some h ∧ service gv = Some sp
       ∧ services w !! sp = Some sv ∧ context sv ≠ None
       ∧ destroy g w =
         (Done (), mkWorld (services w)
            (<[g := mkGeometry None (Some sp) false]> (geometries w))
            (calls w ++ [Call_GEOSGeom_destroy_r (context sv) (Some h)])
            (untrack1 h (live w))))
  ∨ (∃ gv,
       geometries w !! g = Some gv
       ∧ destroy g w =
         (Done (), mkWorld (services w)
            (<[g := mkGeometry (geom gv) (service gv) false]> (geometries w))
            (calls w) (live w))).
Proof.
  intros Hw. destruct (geometries w !! g) as [gv|] eqn:Hg;
    [|left; split; [done | by apply destroy_missing]].
  right. destruct (Hw g gv Hg) as (sp & Hsp & sv & Hs).
  destruct (geom gv) as [h|] eqn:Hh.
  - destruct (context sv) as [c|] eqn:Hc.
    + left. exists gv, h, sp, sv. split_and!; try done; [by rewrite Hc|].
      apply (destroy_live g gv h sp sv w); try done. by rewrite Hc.
    + right. exists gv. split; [done|].
      apply destroy_skipped; [done|]. right; right. by exists sp, sv.
  - right. exists gv. split; [done|].
    apply destroy_skipped; [done|]. by left.
Qed.

Lemma destroy_quiet_step g w : owned w → quiet_step w (destroy g w).2.
Proof.
  intros Hw.
  destruct (destroy_cases g w Hw)
    as [[_ ->] | [(gv & h & sp & sv & Hg & Hh & Hsp & Hs & Hctx & ->) | (gv & Hg & ->)]];
    simpl.
  - split; [done|]. exists []. by rewrite app_nil_r.
  - split; [done|]. eexists [_]. split; [done|]. constructor; [|done].
    exists sp. by eapply on_live_context_intro.
  - split; [done|]. exists []. by rewrite app_nil_r.
Qed.

Lemma destroy_owned g w : owned w → owned (destroy g w).2.
Proof.
  intros Hw.
  destruct (destroy_cases g w Hw)
    as [[_ ->] | [(gv & h & sp & sv & Hg & Hh & Hsp & Hs & Hctx & ->) | (gv & Hg & ->)]];
    simpl; [done|..]; intros p gv' Hp; simpl in *.
  - apply lookup_insert_Some in Hp as [[<- <-] | [_ Hp]]; [|by eapply Hw].
    eexists. split; [reflexivity | by eauto].
  - apply lookup_insert_Some in Hp as [[<- <-] | [_ Hp]]; [|by eapply Hw].
    destruct (Hw g gv Hg) as (sp & Hsp & Hs). by exists sp.
Qed.

Lemma NewService_cases E w :
  (GEOS_init_r E (calls w) = None
   ∧ (NewService E w).2 =
     mkWorld (services w) (geometries w) (calls w ++ [Call_GEOS_init_r]) (live w))
  ∨ (∃ c, GEOS_init_r E (calls w) = Some c
       ∧ services w !! fresh (dom (services w)) = None
       ∧ (NewService E w).2 =
         mkWorld (<[fresh (dom (services w)) := mkService (Some c) true]> (services w))
                 (geometries w) (calls w ++ [Call_GEOS_init_r]) (live w)).
Proof.
  unfold NewService, bind, C_GEOS_init_r, invoke, alloc_service, ret. simpl.
  destruct (GEOS_init_r E (calls w)) as [c|] eqn:Hc; [right | by left].
  exists c. split_and!; [done | apply not_elem_of_dom, is_fresh | done].
Qed.

Lemma Close_cases s w :
  Close s w = (Panic nil_dereference, w)
  ∨ ∃ sv, services w !! s = Some sv
        ∧ (Close s w).2 =
          mkWorld (<[s := mkService None false]> (services w)) (geometries w)
                  (calls w ++ finish_calls sv) (live w).
Proof.
  destruct (services w !! s) as [sv|] eqn:Hs; [right | left; by apply Close_missing].
  exists sv. split; [done|]. by rewrite (Close_spec _ _ _ Hs).
Qed.

Lemma api_step_cases E w w' :
  owned w → api_step E w w' →
  quiet_step w w' ∨ w' = (NewService E w).2 ∨ ∃ s, w' = (Close s w).2.
Proof.
  intros Hw Hstep.
  destruct Hstep; [by right; left | right; right; by eexists | left ..].
  - by apply destroy_quiet_step.
  - eapply footprint_quiet_step, footprint_ParseGeometry.
  - eapply footprint_quiet_step, footprint_ToWKT.
  - eapply footprint_quiet_step, footprint_Within.
  - eapply footprint_quiet_step, footprint_Intersects.
  - eapply footprint_quiet_step, footprint_Distance.
  - eapply footprint_quiet_step, footprint_Buffer.
  - eapply footprint_quiet_step, footprint_Simplify.
  - eapply footprint_quiet_step, footprint_Union.
  - eapply footprint_quiet_step, footprint_Difference.
Qed.

Lemma api_step_owned E w w' : owned w → api_step E w w' → owned w'.
Proof.
  intros Hw Hstep. destruct Hstep.
  - destruct (NewService_cases E w) as [[_ ->] | (c & _ & _ & ->)]; [done|].
    intros p gv Hp. destruct (Hw p gv Hp) as (sp & Hsp & Hs). exists sp.
    split; [done|]. simpl. rewrite lookup_insert_is_Some. destruct (decide (fresh (dom (services w)) = sp)); auto.
  - destruct (Close_cases s w) as [-> | (sv & Hs & ->)]; [done|].
    intros p gv Hp. destruct (Hw p gv Hp) as (sp & Hsp & Hsv). exists sp.
    split; [done|]. simpl. rewrite lookup_insert_is_Some. destruct (decide (s = sp)); auto.
  - by apply destroy_owned.
  - eapply footprint_owned; [done | apply footprint_ParseGeometry].
  - eapply footprint_owned; [done | apply footprint_ToWKT].
  - eapply footprint_owned; [done | apply footprint_Within].
  - eapply footprint_owned; [done | apply footprint_Intersects].
  - eapply footprint_owned; [done | apply footprint_Distance].
  - eapply footprint_owned; [done | apply footprint_Buffer].
  - eapply footprint_owned; [done | apply footprint_Simplify].
  - eapply footprint_owned; [done | apply footprint_Union].
  - eapply footprint_owned; [done | apply footprint_Difference].
Qed.

Lemma reachable_owned E w : reachable E w → owned w.
Proof.
  induction 1 as [|w w' _ IH Hstep]; [|by eapply api_step_owned].
  intros p gv Hp. unfold empty_world in Hp. simpl in Hp.
  by rewrite lookup_empty in Hp.
Qed.

Lemma reachable_contexts_not_null E w :
  reachable E w → ∀ x, x ∈ calls w → call_context x ≠ Some None.
Proof.
  induction 1 as [|w w' Hreach IH Hstep]; intros x Hx.
  { by apply elem_of_nil in Hx. }
  destruct (api_step_cases E w w' (reachable_owned _ _ Hreach) Hstep)
    as [(_ & new & Hc & Hnew) | [-> | [s ->]]].
  - rewrite Hc in Hx. apply elem_of_app in Hx as [Hx | Hx]; [by apply IH|].
    rewrite Forall_forall in Hnew.
    destruct (Hnew x Hx) as (s & _ & sv & c & _ & _ & ->). done.
  - destruct (NewService_cases E w) as [[_ Hw'] | (c & _ & _ & Hw')];
      rewrite Hw' in Hx; simpl in Hx;
      (apply elem_of_app in Hx as [Hx | Hx]; [by apply IH|]);
      apply list_elem_of_singleton in Hx as ->; done.
  - destruct (Close_cases s w) as [Hw' | (sv & Hs & Hw')];
      rewrite Hw' in Hx; simpl in Hx; [by apply IH|].
    apply elem_of_app in Hx as [Hx | Hx]; [by apply IH|].
    unfold finish_calls in Hx. case_bool_decide as Hctx; [|by apply elem_of_nil in Hx].
    apply list_elem_of_singleton in Hx as ->. simpl. congruence.
Qed.

(** X12. In every state the API can reach from the empty one, whatever the
    engine answers and whatever arguments the calls were given: every stored
    geometry names a stored service as its owner, no library call in the log
    was made on a [NULL] context, and [destroy] on a stored geometry returns
    normally. *)
Theorem reachable_invariants (E : Engine) (w : World) :
  reachable E w →
  owned w
  ∧ (∀ x, x ∈ calls w → call_context x ≠ Some None)
  ∧ (∀ g, is_Some (geometries w !! g) → (destroy g w).1 = Done ()).
Proof.
  intros Hreach. pose proof (reachable_owned _ _ Hreach) as Hw.
  split_and!; [done | by apply (reachable_contexts_not_null E) |].
  intros g [gv Hg].
  destruct (destroy_cases g w Hw)
    as [[Hnone _] | [(? & ? & ? & ? & _ & _ & _ & _ & _ & ->) | (? & _ & ->)]];
    [congruence | done..].
Qed.

Lemma reachable_world_closed : reachable demo_engine world_closed.
Proof.
  unfold world_closed, world_point, world_service.
  repeat (eapply reachable_step; [|by constructor]). constructor.
Qed.

Lemma reachable_invariants_witness :
  owned world_closed
  ∧ (∀ x, x ∈ calls world_closed → call_context x ≠ Some None)
  ∧ (destroy 0 world_closed).1 = Done ().
Proof.
  destruct (reachable_invariants demo_engine world_closed reachable_world_closed)
    as (Hown & Hctx & Hdestroy).
  split_and!; [done | done |]. apply Hdestroy. vm_compute. eauto.
Defined.

(** ** Scoping of the library calls *)

Lemma replay_app E rest1 : ∀ before st rest2,
  replay E before st (rest1 ++ rest2) =
  replay E (before ++ rest1) (replay E before st rest1) rest2.
Proof.
  induction rest1 as [|x rest1 IH]; intros before st rest2; simpl.
  - by rewrite app_nil_r.
  - by rewrite IH, <- app_assoc.
Qed.

Lemma replay_snoc E log st x :
  replay E [] st (log ++ [x]) = log_step E log (replay E [] st log) x.
Proof. by rewrite replay_app. Qed.

Lemma replay_quiet E new : ∀ before open,
  Forall (λ x, lifecycle_call x = false
               ∧ ∃ c, call_context x = Some (Some c) ∧ c ∈ open) new →
  replay E before (open, true) new = (open, true).
Proof.
  induction new as [|x new IH]; intros before open Hall; [done|].
  apply Forall_cons in Hall as [(Hl & c & Hx & Hc) Hnew]. simpl.
  assert (log_step E before (open, true) x = (open, true)) as ->.
  { destruct x; simplify_eq/=; by rewrite bool_decide_eq_true_2. }
  by apply IH.
Qed.

Lemma quiet_step_accounted E w w' :
  contexts_accounted E w → well_scoped E (calls w) = true → quiet_step w w' →
  contexts_accounted E w' ∧ well_scoped E (calls w') = true.
Proof.
  intros [Hopen Hinj] Hok (HS & new & Hc & Hnew).
  assert (replay E [] ([], true) (calls w') = replay E [] ([], true) (calls w)) as Hsame.
  { rewrite Hc, replay_app. simpl.
    destruct (replay E [] ([], true) (calls w)) as [open ok] eqn:Hr.
    unfold well_scoped in Hok. rewrite Hr in Hok. simpl in Hok. subst ok.
    apply replay_quiet. eapply Forall_impl; [done|].
    intros x (s & Hl & sv & c & Hs & Hctx & Hx). split; [done|].
    exists c. split; [done|].
    specialize (Hopen s sv c Hs Hctx). unfold open_contexts in Hopen.
    by rewrite Hr in Hopen. }
  unfold contexts_accounted, open_contexts, well_scoped.
  rewrite Hsame, HS. split; [split|]; done.
Qed.

Lemma NewService_accounted E w :
  no_reuse_while_open E →
  contexts_accounted E w → well_scoped E (calls w) = true →
  contexts_accounted E (NewService E w).2
  ∧ well_scoped E (calls (NewService E w).2) = true.
Proof.
  intros Hfresh [Hopen Hinj] Hok.
  destruct (NewService_cases E w) as [[Hnone ->] | (c & Hc & Hnew & ->)];
    unfold contexts_accounted, open_contexts, well_scoped in *; simpl;
    rewrite replay_snoc; simpl.
  - rewrite Hnone. split; [split|]; done.
  - rewrite Hc. simpl. split; [split|done].
    + intros s sv c' Hs Hctx.
      apply lookup_insert_Some in Hs as [[<- <-] | [_ Hs]]; simpl in *.
      * injection Hctx as <-. apply elem_of_cons. by left.
      * apply elem_of_cons. right. by eapply Hopen.
    + intros s s' sv sv' c' Hs Hs' Hctx Hctx'.
      apply lookup_insert_Some in Hs as [[<- <-] | [Hne Hs]];
        apply lookup_insert_Some in Hs' as [[<- <-] | [Hne' Hs']];
        simpl in *; simplify_eq.
      * done.
      * destruct (Hfresh _ _ Hc). by eapply Hopen.
      * destruct (Hfresh _ _ Hc). by eapply Hopen.
      * by eapply Hinj.
Qed.

Lemma Close_accounted E s w :
  contexts_accounted E w → well_scoped E (calls w) = true →
  contexts_accounted E (Close s w).2 ∧ well_scoped E (calls (Close s w).2) = true.
Proof.
  intros [Hopen Hinj] Hok.
  destruct (Close_cases s w) as [-> | (sv & Hs & ->)]; [done|].
  unfold finish_calls. case_bool_decide as Hctx.
  - destruct (context sv) as [c|] eqn:Hc; [|done].
    unfold contexts_accounted, open_contexts, well_scoped in *; simpl.
    rewrite replay_snoc; simpl.
    split; [split|].
    + intros s' sv' c' Hs' Hctx'.
      apply lookup_insert_Some in Hs' as [[<- <-] | [Hne Hs']]; [done|].
      apply list_elem_of_filter. split; [|by eapply Hopen].
      intros ->. apply Hne. by eapply Hinj.
    + intros s1 s2 sv1 sv2 c' Hs1 Hs2 Hc1 Hc2.
      apply lookup_insert_Some in Hs1 as [[<- <-] | [Hne1 Hs1]]; [done|].
      apply lookup_insert_Some in Hs2 as [[<- <-] | [Hne2 Hs2]]; [done|].
      by eapply Hinj.
    + rewrite Hok. simpl. apply bool_decide_eq_true_2. by eapply Hopen.
  - unfold contexts_accounted, open_contexts, well_scoped in *; simpl.
    rewrite app_nil_r. split; [split|done].
    + intros s' sv' c' Hs' Hctx'.
      apply lookup_insert_Some in Hs' as [[<- <-] | [Hne Hs']]; [done|].
      by eapply Hopen.
    + intros s1 s2 sv1 sv2 c' Hs1 Hs2 Hc1 Hc2.
      apply lookup_insert_Some in Hs1 as [[<- <-] | [Hne1 Hs1]]; [done|].
      apply lookup_insert_Some in Hs2 as [[<- <-] | [Hne2 Hs2]]; [done|].
      by eapply Hinj.
Qed.

Lemma reachable_accounted E w :
  no_reuse_while_open E → reachable E w →
  contexts_accounted E w ∧ well_scoped E (calls w) = true.
Proof.
  intros Hfresh. induction 1 as [|w w' Hreach [IH1 IH2] Hstep].
  - split; [split|done]; intros *; unfold empty_world; simpl;
      by rewrite lookup_empty.
  - destruct (api_step_cases E w w' (reachable_owned _ _ Hreach) Hstep)
      as [Hquiet | [-> | [s ->]]].
    + by eapply quiet_step_accounted.
    + by apply NewService_accounted.
    + by apply Close_accounted.
Qed.

(** X13. If the library never hands out a context that is still open, then
    in every state the API can reach every library call of the log was made
    on a context that was open at that moment: returned by an earlier
    [GEOS_init_r] and not yet given to [GEOS_finish_r]. No context is used
    after it was finished and none is finished twice. Moreover every service
    that holds a context holds an open one, and no two services hold the
    same. *)
Theorem reachable_well_scoped (E : Engine) (w : World) :
  no_reuse_while_open E → reachable E w →
  well_scoped E (calls w) = true ∧ contexts_accounted E w.
Proof. intros Hfresh Hreach. by destruct (reachable_accounted E w Hfresh Hreach). Qed.

Lemma demo_engine_open_bound rest : ∀ before st,
  (∀ n, n ∈ st.1 → (n < 1000 + length before)%nat) →
  ∀ n, n ∈ (replay demo_engine before st rest).1 →
       (n < 1000 + length before + length rest)%nat.
Proof.
  induction rest as [|x rest IH]; intros before st Hst n Hn; simpl in *.
  { specialize (Hst n Hn). lia. }
  specialize (IH (before ++ [x]) (log_step demo_engine before st x)).
  rewrite length_app in IH. simpl in IH.
  assert (n < 1000 + (length before + 1) + length rest)%nat; [|lia].
  apply IH; [|done]. intros m Hm.
  assert (m ∈ st.1 ∨ m = (1000 + length before)%nat) as [Hold | ->];
    [|specialize (Hst m Hold); lia | lia].
  destruct x; simpl in Hm; auto.
  - apply elem_of_cons in Hm as [-> | Hm]; auto.
  - destruct ctx; [apply list_elem_of_filter in Hm as [_ Hm]|]; auto.
Qed.

Lemma demo_engine_no_reuse : no_reuse_while_open demo_engine.
Proof.
  intros log c Hc Hopen. simpl in Hc. injection Hc as <-.
  apply (demo_engine_open_bound log [] ([], true)) in Hopen; [simpl in Hopen; lia|].
  intros n Hn. by apply elem_of_nil in Hn.
Qed.

Lemma reachable_well_scoped_witness :
  well_scoped demo_engine (calls world_closed) = true
  ∧ open_contexts demo_engine (calls world_closed) = [].
Proof.
  destruct (reachable_well_scoped demo_engine world_closed
              demo_engine_no_reuse reachable_world_closed) as [Hok _].
  split; [exact Hok | vm_compute; reflexivity].
Defined.

(** * Outcomes of the operations on a live service *)

Lemma next_geometry_free w : geometries w !! next_geometry w = None.
Proof. unfold next_geometry. apply not_elem_of_dom, is_fresh. Qed.

Lemma handle_at_usable w g h : handle_at w g h → usable w g.
Proof. intros (p & gv & -> & Hg & Hh). exists p, gv. by rewrite Hh. Qed.

Lemma handle_of_handle_at w g h :
  handle_at w g h → handle_of g w = (Done (Some h), w).
Proof.
  intros (p & gv & -> & Hg & Hh). unfold handle_of, bind, ret.
  by rewrite (load_geometry_Some _ _ _ Hg), Hh.
Qed.

(** X14. [NewService] makes one library call. When the library returns no
    context it reports "failed to initialize GEOS context" and stores
    nothing. Otherwise it returns a pointer that was not in use, to a new
    service that holds the returned context and has a finalizer, and every
    service stored before is as it was. *)
Theorem NewService_outcome (E : Engine) (w : World) :
  (GEOS_init_r E (calls w) = None →
     NewService E w =
     (Done (None, Some "failed to initialize GEOS context"),
      with_call Call_GEOS_init_r w))
  ∧ (∀ c, GEOS_init_r E (calls w) = Some c →
       services w !! next_service w = None
       ∧ NewService E w =
         (Done (Some (next_service w), None),
          mkWorld (<[next_service w := mkService (Some c) true]> (services w))
                  (geometries w) (calls w ++ [Call_GEOS_init_r]) (live w))
       ∧ ∀ q sv, services w !! q = Some sv →
           services (NewService E w).2 !! q = Some sv).
Proof.
  unfold NewService, bind, C_GEOS_init_r, invoke, alloc_service, ret, with_call,
    next_service.
  simpl. split.
  - by intros ->.
  - intros c ->. simpl.
    assert (services w !! fresh (dom (services w)) = None) as Hfree
      by apply not_elem_of_dom, is_fresh.
    split_and!; [done | done |].
    intros q sv Hq. simpl. rewrite lookup_insert_ne; [done|]. intros <-. congruence.
Qed.

Lemma NewService_outcome_witness :
  NewService demo_engine empty_world =
  (Done (Some 0%nat, None),
   mkWorld {[0%nat := mkService (Some 1000%nat) true]} ∅ [Call_GEOS_init_r] []).
Proof.
  destruct (NewService_outcome demo_engine empty_world) as [_ Hok].
  destruct (Hok 1000%nat eq_refl) as (_ & Hrun & _).
  rewrite Hrun. vm_compute. reflexivity.
Defined.

Section LiveService.

Variable E : Engine.
Variables (s : loc) (sv : Service) (w : World).
Hypothesis Hs : services w !! s = Some sv.
Hypothesis Hctx : context sv ≠ None.

Local Ltac enter :=
  unfold bind; rewrite ?(load_service_Some _ _ _ Hs);
  rewrite ?(bool_decide_eq_false_2 (context sv = None)) by done.

Lemma live_ParseGeometry_success input wkt h :
  input_wkt input = (wkt, None) →
  GEOSGeomFromWKT_r E (calls w) (context sv) wkt = Some h →
  GEOSisValid_r E (calls w ++ [Call_GEOSGeomFromWKT_r (context sv) wkt])
                (context sv) (Some h) ≠ 0 →
  ParseGeometry E s input w =
  (Done (Some (next_geometry w), None),
   with_call (Call_GEOSisValid_r (context sv) (Some h))
     (with_geometry h s (with_call (Call_GEOSGeomFromWKT_r (context sv) wkt) w))).
Proof.
  intros Hin Hparse Hvalid. unfold ParseGeometry. enter. rewrite Hin.
  unfold parse_wkt.
  rewrite bool_decide_eq_false_2
    by (rewrite length_zero_empty; by eapply input_wkt_nonempty).
  unfold bind, C_GEOSGeomFromWKT_r, C_GEOSisValid_r, invoke, newGeometry,
    alloc_geometry, ret, with_call, with_geometry, next_geometry.
  simpl. rewrite Hparse. simpl.
  rewrite (bool_decide_eq_false_2 _ Hvalid). simpl.
  by rewrite <- app_assoc.
Qed.

Lemma live_ParseGeometry_parse_failure input wkt :
  input_wkt input = (wkt, None) →
  GEOSGeomFromWKT_r E (calls w) (context sv) wkt = None →
  ParseGeometry E s input w =
  (Done (None, Some ("failed to parse WKT geometry: " +:+ wkt)),
   with_call (Call_GEOSGeomFromWKT_r (context sv) wkt) w).
Proof.
  intros Hin Hparse. unfold ParseGeometry. enter. rewrite Hin.
  unfold parse_wkt.
  rewrite bool_decide_eq_false_2
    by (rewrite length_zero_empty; by eapply input_wkt_nonempty).
  unfold bind, C_GEOSGeomFromWKT_r, invoke, ret, with_call.
  simpl. by rewrite Hparse.
Qed.

Lemma live_ParseGeometry_input_error input text err :
  input_wkt input = (text, Some err) →
  ParseGeometry E s input w = (Done (None, Some err), w).
Proof. intros Hin. unfold ParseGeometry. enter. by rewrite Hin. Qed.

Lemma live_ToWKT g h :
  handle_at w g h →
  ToWKT E s g w =
  (Done (match GEOSGeomToWKT_r E (calls w) (context sv) (Some h) with
         | Some text => (text, None)
         | None => ("", Some "failed to convert geometry to WKT")
         end),
   with_call (Call_GEOSGeomToWKT_r (context sv) (Some h)) w).
Proof.
  intros Hg. unfold ToWKT, bind.
  rewrite (nil_or_no_handle_usable _ _ (handle_at_usable _ _ _ Hg)). enter.
  rewrite (handle_of_handle_at _ _ _ Hg).
  unfold C_GEOSGeomToWKT_r, invoke, ret, with_call.
  by destruct (GEOSGeomToWKT_r _ _ _ _).
Qed.

Lemma live_binary_prefix a b ha hb :
  handle_at w a ha → handle_at w b hb →
  nil_or_no_handle2 a b w = (Done false, w).
Proof.
  intros Ha Hb.
  by apply nil_or_no_handle2_usable; eapply handle_at_usable.
Qed.

Lemma live_Within a b ha hb :
  handle_at w a ha → handle_at w b hb →
  Within E s a b w =
  (Done (let result := GEOSWithin_r E (calls w) (context sv) (Some ha) (Some hb) in
         if bool_decide (result = 2) then (false, Some "GEOS within operation failed")
         else (bool_decide (result = 1), None)),
   with_call (Call_GEOSWithin_r (context sv) (Some ha) (Some hb)) w).
Proof.
  intros Ha Hb. unfold Within, bind.
  rewrite (live_binary_prefix _ _ _ _ Ha Hb). enter.
  rewrite (handle_of_handle_at _ _ _ Ha), (handle_of_handle_at _ _ _ Hb).
  unfold C_GEOSWithin_r, invoke, ret, with_call. simpl. by case_bool_decide.
Qed.

Lemma live_Intersects a b ha hb :
  handle_at w a ha → handle_at w b hb →
  Intersects E s a b w =
  (Done (let result := GEOSIntersects_r E (calls w) (context sv) (Some ha) (Some hb) in
         if bool_decide (result = 2) then (false, Some "GEOS intersects operation failed")
         else (bool_decide (result = 1), None)),
   with_call (Call_GEOSIntersects_r (context sv) (Some ha) (Some hb)) w).
Proof.
  intros Ha Hb. unfold Intersects, bind.
  rewrite (live_binary_prefix _ _ _ _ Ha Hb). enter.
  rewrite (handle_of_handle_at _ _ _ Ha), (handle_of_handle_at _ _ _ Hb).
  unfold C_GEOSIntersects_r, invoke, ret, with_call. simpl. by case_bool_decide.
Qed.

Lemma live_Distance a b ha hb :
  handle_at w a ha → handle_at w b hb →
  Distance E s a b w =
  (Done (let answer := GEOSDistance_r E (calls w) (context sv) (Some ha) (Some hb) in
         if bool_decide (answer.1 = 0) then (0%float, Some "failed to calculate distance")
         else (answer.2, None)),
   with_call (Call_GEOSDistance_r (context sv) (Some ha) (Some hb)) w).
Proof.
  intros Ha Hb. unfold Distance, bind.
  rewrite (live_binary_prefix _ _ _ _ Ha Hb). enter.
  rewrite (handle_of_handle_at _ _ _ Ha), (handle_of_handle_at _ _ _ Hb).
  unfold C_GEOSDistance_r, invoke, ret, with_call. simpl. by case_bool_decide.
Qed.

Lemma live_Buffer g h radius :
  handle_at w g h →
  Buffer E s g radius w =
  transform_outcome s w (Call_GEOSBuffer_r (context sv) (Some h) radius 8)
    (GEOSBuffer_r E (calls w) (context sv) (Some h) radius 8)
    "failed to create buffer".
Proof.
  intros Hg. unfold Buffer, bind.
  rewrite (nil_or_no_handle_usable _ _ (handle_at_usable _ _ _ Hg)). enter.
  rewrite (handle_of_handle_at _ _ _ Hg).
  unfold C_GEOSBuffer_r, invoke, transform_outcome. simpl.
  destruct (GEOSBuffer_r _ _ _ _ _ _); done.
Qed.

Lemma live_Simplify g h tolerance :
  handle_at w g h →
  Simplify E s g tolerance w =
  transform_outcome s w (Call_GEOSSimplify_r (context sv) (Some h) tolerance)
    (GEOSSimplify_r E (calls w) (context sv) (Some h) tolerance)
    "failed to simplify geometry".
Proof.
  intros Hg. unfold Simplify, bind.
  rewrite (nil_or_no_handle_usable _ _ (handle_at_usable _ _ _ Hg)). enter.
  rewrite (handle_of_handle_at _ _ _ Hg).
  unfold C_GEOSSimplify_r, invoke, transform_outcome. simpl.
  destruct (GEOSSimplify_r _ _ _ _ _); done.
Qed.

Lemma live_Difference a b ha hb :
  handle_at w a ha → handle_at w b hb →
  Difference E s a b w =
  transform_outcome s w (Call_GEOSDifference_r (context sv) (Some ha) (Some hb))
    (GEOSDifference_r E (calls w) (context sv) (Some ha) (Some hb))
    "failed to create difference".
Proof.
  intros Ha Hb. unfold Difference, bind.
  rewrite (live_binary_prefix _ _ _ _ Ha Hb). enter.
  rewrite (handle_of_handle_at _ _ _ Ha), (handle_of_handle_at _ _ _ Hb).
  unfold C_GEOSDifference_r, invoke, transform_outcome. simpl.
  destruct (GEOSDifference_r _ _ _ _ _); done.
Qed.

End LiveService.

(** X15. On a live service, for an input from which a text is obtained:
    when the library parses the text and its validity answer is anything but
    0, including the value 2 by which it signals an exception,
    [ParseGeometry] returns a pointer that was not in use, to a new geometry
    that wraps the handle, belongs to the service and has a finalizer, after
    exactly the parse call and the validity call; when the library returns
    no handle, it reports "failed to parse WKT geometry: " followed by the
    text after the parse call alone. An input from which no text is obtained
    is reported without any library call. *)
Theorem ParseGeometry_outcomes (E : Engine) (s : loc) (sv : Service) (w : World)
    (input : GeometryInput) :
  services w !! s = Some sv → context sv ≠ None →
  geometries w !! next_geometry w = None
  ∧ (∀ wkt h,
       input_wkt input = (wkt, None) →
       GEOSGeomFromWKT_r E (calls w) (context sv) wkt = Some h →
       GEOSisValid_r E (calls w ++ [Call_GEOSGeomFromWKT_r (context sv) wkt])
                     (context sv) (Some h) ≠ 0 →
       ParseGeometry E s input w =
       (Done (Some (next_geometry w), None),
        with_call (Call_GEOSisValid_r (context sv) (Some h))
          (with_geometry h s (with_call (Call_GEOSGeomFromWKT_r (context sv) wkt) w))))
  ∧ (∀ wkt,
       input_wkt input = (wkt, None) →
       GEOSGeomFromWKT_r E (calls w) (context sv) wkt = None →
       ParseGeometry E s input w =
       (Done (None, Some ("failed to parse WKT geometry: " +:+ wkt)),
        with_call (Call_GEOSGeomFromWKT_r (context sv) wkt) w))
  ∧ (∀ text err,
       input_wkt input = (text, Some err) →
       ParseGeometry E s input w = (Done (None, Some err), w)).
Proof.
  intros Hs Hctx. split_and!.
  - apply next_geometry_free.
  - intros. by eapply live_ParseGeometry_success.
  - intros. by eapply live_ParseGeometry_parse_failure.
  - intros. by eapply live_ParseGeometry_input_error.
Qed.

Lemma ParseGeometry_outcomes_witness :
  ParseGeometry demo_engine 0 point_input world_service =
    (Done (Some 0%nat, None), world_point)
  ∧ ParseGeometry demo_engine 0 (mkGeometryInput "nonsense" None 0) world_service =
    (Done (None, Some "failed to parse WKT geometry: nonsense"),
     with_call (Call_GEOSGeomFromWKT_r (Some 1000%nat) "nonsense") world_service)
  ∧ ParseGeometry demo_engine 0 (mkGeometryInput "" (Some ∅) 0) world_service =
    (Done (None, Some "invalid GeoJSON: missing type"), world_service).
Proof.
  assert (services world_service !! 0%nat = Some (mkService (Some 1000%nat) true))
    as Hs by (vm_compute; reflexivity).
  assert (context (mkService (Some 1000%nat) true) ≠ None) as Hctx by discriminate.
  split_and!.
  - destruct (ParseGeometry_outcomes demo_engine 0 _ world_service point_input Hs Hctx)
      as (_ & Hok & _).
    rewrite (Hok "POINT(1 1)" 1%nat); [| reflexivity | reflexivity | discriminate].
    vm_compute. reflexivity.
  - destruct (ParseGeometry_outcomes demo_engine 0 _ world_service
                (mkGeometryInput "nonsense" None 0) Hs Hctx) as (_ & _ & Hfail & _).
    apply Hfail; reflexivity.
  - destruct (ParseGeometry_outcomes demo_engine 0 _ world_service
                (mkGeometryInput "" (Some ∅) 0) Hs Hctx) as (_ & _ & _ & Herr).
    by apply (Herr "").
Defined.

(** X16. On a live service with two stored geometries that have handles,
    [Within] and [Intersects] each make exactly one library call, on the
    service's context and the two handles in order, and nothing else changes.
    The answer 1 is reported as true, the answer 2 as an error, and every
    other answer, not only 0, as false without error. *)
Theorem predicate_answers (E : Engine) (s : loc) (sv : Service) (w : World)
    (a b : option loc) (ha hb : nat) :
  services w !! s = Some sv → context sv ≠ None →
  handle_at w a ha → handle_at w b hb →
  let within := GEOSWithin_r E (calls w) (context sv) (Some ha) (Some hb) in
  let intersects := GEOSIntersects_r E (calls w) (context sv) (Some ha) (Some hb) in
  (Within E s a b w).2 = with_call (Call_GEOSWithin_r (context sv) (Some ha) (Some hb)) w
  ∧ (within = 1 → (Within E s a b w).1 = Done (true, None))
  ∧ (within = 2 →
     (Within E s a b w).1 = Done (false, Some "GEOS within operation failed"))
  ∧ (within ≠ 1 → within ≠ 2 → (Within E s a b w).1 = Done (false, None))
  ∧ (Intersects E s a b w).2 =
    with_call (Call_GEOSIntersects_r (context sv) (Some ha) (Some hb)) w
  ∧ (intersects = 1 → (Intersects E s a b w).1 = Done (true, None))
  ∧ (intersects = 2 →
     (Intersects E s a b w).1 = Done (false, Some "GEOS intersects operation failed"))
  ∧ (intersects ≠ 1 → intersects ≠ 2 → (Intersects E s a b w).1 = Done (false, None)).
Proof.
  intros Hs Hctx Ha Hb within intersects. subst within intersects.
  rewrite (live_Within E s sv w Hs Hctx a b ha hb Ha Hb).
  rewrite (live_Intersects E s sv w Hs Hctx a b ha hb Ha Hb). simpl.
  split_and!; try done.
  - by intros ->.
  - by intros ->.
  - intros H1 H2. by rewrite !bool_decide_eq_false_2.
  - by intros ->.
  - by intros ->.
  - intros H1 H2. by rewrite !bool_decide_eq_false_2.
Qed.

Lemma predicate_answers_witness :
  Within demo_engine 0 (Some 0%nat) (Some 0%nat) world_point =
  (Done (true, None),
   with_call (Call_GEOSWithin_r (Some 1000%nat) (Some 1%nat) (Some 1%nat)) world_point).
Proof.
  assert (services world_point !! 0%nat = Some (mkService (Some 1000%nat) true))
    as Hs by (vm_compute; reflexivity).
  assert (context (mkService (Some 1000%nat) true) ≠ None) as Hctx by discriminate.
  assert (handle_at world_point (Some 0%nat) 1) as Hg.
  { exists 0%nat, (mkGeometry (Some 1%nat) (Some 0%nat) true).
    split_and!; [done | vm_compute; reflexivity | done]. }
  destruct (predicate_answers demo_engine 0 _ world_point _ _ 1%nat 1%nat Hs Hctx Hg Hg)
    as (Hw & H1 & _).
  destruct (Within demo_engine 0 (Some 0%nat) (Some 0%nat) world_point) as [r w'].
  simpl in Hw, H1. rewrite Hw, H1; reflexivity.
Defined.

(** X17. On a live service with two stored geometries that have handles,
    [Distance] makes exactly one library call. When the status is 0 it
    reports "failed to calculate distance" with the value 0, whatever was
    written through the out-parameter; for every other status it returns the
    written value. *)
Theorem Distance_answers (E : Engine) (s : loc) (sv : Service) (w : World)
    (a b : option loc) (ha hb : nat) :
  services w !! s = Some sv → context sv ≠ None →
  handle_at w a ha → handle_at w b hb →
  let answer := GEOSDistance_r E (calls w) (context sv) (Some ha) (Some hb) in
  (Distance E s a b w).2 =
    with_call (Call_GEOSDistance_r (context sv) (Some ha) (Some hb)) w
  ∧ (answer.1 = 0 →
     (Distance E s a b w).1 = Done (0%float, Some "failed to calculate distance"))
  ∧ (answer.1 ≠ 0 → (Distance E s a b w).1 = Done (answer.2, None)).
Proof.
  intros Hs Hctx Ha Hb answer. subst answer.
  rewrite (live_Distance E s sv w Hs Hctx a b ha hb Ha Hb). simpl.
  split_and!; [done | |].
  - intros H0. by rewrite bool_decide_eq_true_2.
  - intros H0. by rewrite bool_decide_eq_false_2.
Qed.

Lemma Distance_answers_witness :
  Distance demo_engine 0 (Some 0%nat) (Some 0%nat) world_point =
  (Done (5%float, None),
   with_call (Call_GEOSDistance_r (Some 1000%nat) (Some 1%nat) (Some 1%nat)) world_point).
Proof.
  assert (services world_point !! 0%nat = Some (mkService (Some 1000%nat) true))
    as Hs by (vm_compute; reflexivity).
  assert (context (mkService (Some 1000%nat) true) ≠ None) as Hctx by discriminate.
  assert (handle_at world_point (Some 0%nat) 1) as Hg.
  { exists 0%nat, (mkGeometry (Some 1%nat) (Some 0%nat) true).
    split_and!; [done | vm_compute; reflexivity | done]. }
  destruct (Distance_answers demo_engine 0 _ world_point _ _ 1%nat 1%nat Hs Hctx Hg Hg)
    as (Hw & _ & Hok).
  destruct (Distance demo_engine 0 (Some 0%nat) (Some 0%nat) world_point) as [r w'].
  simpl in Hw, Hok. rewrite Hw, Hok; [reflexivity | discriminate].
Defined.

(** X18. On a live service with a stored geometry that has a handle, [ToWKT]
    makes exactly one library call and changes nothing else; it returns the
    library's text as it is, also when that text is empty, and reports
    "failed to convert geometry to WKT" when the library returns none. *)
Theorem ToWKT_answers (E : Engine) (s : loc) (sv : Service) (w : World)
    (g : option loc) (h : nat) :
  services w !! s = Some sv → context sv ≠ None → handle_at w g h →
  (ToWKT E s g w).2 = with_call (Call_GEOSGeomToWKT_r (context sv) (Some h)) w
  ∧ (∀ text, GEOSGeomToWKT_r E (calls w) (context sv) (Some h) = Some text →
       (ToWKT E s g w).1 = Done (text, None))
  ∧ (GEOSGeomToWKT_r E (calls w) (context sv) (Some h) = None →
       (ToWKT E s g w).1 = Done ("", Some "failed to convert geometry to WKT")).
Proof.
  intros Hs Hctx Hg. rewrite (live_ToWKT E s sv w Hs Hctx g h Hg). simpl.
  split_and!; [done | by intros text -> | by intros ->].
Qed.

Lemma ToWKT_answers_witness :
  ToWKT demo_engine 0 (Some 0%nat) world_point =
  (Done ("POINT (1 1)", None),
   with_call (Call_GEOSGeomToWKT_r (Some 1000%nat) (Some 1%nat)) world_point).
Proof.
  assert (services world_point !! 0%nat = Some (mkService (Some 1000%nat) true))
    as Hs by (vm_compute; reflexivity).
  assert (context (mkService (Some 1000%nat) true) ≠ None) as Hctx by discriminate.
  assert (handle_at world_point (Some 0%nat) 1) as Hg.
  { exists 0%nat, (mkGeometry (Some 1%nat) (Some 0%nat) true).
    split_and!; [done | vm_compute; reflexivity | done]. }
  destruct (ToWKT_answers demo_engine 0 _ world_point _ 1%nat Hs Hctx Hg)
    as (Hw & Hok & _).
  destruct (ToWKT demo_engine 0 (Some 0%nat) world_point) as [r w'].
  simpl in Hw, Hok. rewrite Hw, (Hok "POINT (1 1)"); reflexivity.
Defined.

(** X19. On a live service with stored geometries that have handles,
    [Buffer], [Simplify] and [Difference] each make exactly one library call
    ([Buffer] always with 8 segments per quadrant). When the library returns
    a handle, the operation returns a pointer that was not in use, to a new
    geometry that wraps the handle, belongs to the service and has a
    finalizer; the operands are not changed. When the library returns none,
    the operation reports its own error and stores nothing. *)
Theorem transform_outcomes (E : Engine) (s : loc) (sv : Service) (w : World)
    (a b : option loc) (ha hb : nat) (x : float64) :
  services w !! s = Some sv → context sv ≠ None →
  handle_at w a ha → handle_at w b hb →
  geometries w !! next_geometry w = None
  ∧ Buffer E s a x w =
    transform_outcome s w (Call_GEOSBuffer_r (context sv) (Some ha) x 8)
      (GEOSBuffer_r E (calls w) (context sv) (Some ha) x 8)
      "failed to create buffer"
  ∧ Simplify E s a x w =
    transform_outcome s w (Call_GEOSSimplify_r (context sv) (Some ha) x)
      (GEOSSimplify_r E (calls w) (context sv) (Some ha) x)
      "failed to simplify geometry"
  ∧ Difference E s a b w =
    transform_outcome s w (Call_GEOSDifference_r (context sv) (Some ha) (Some hb))
      (GEOSDifference_r E (calls w) (context sv) (Some ha) (Some hb))
      "failed to create difference".
Proof.
  intros Hs Hctx Ha Hb. split_and!.
  - apply next_geometry_free.
  - by eapply live_Buffer.
  - by eapply live_Simplify.
  - by eapply live_Difference.
Qed.

Lemma transform_outcomes_witness :
  Buffer demo_engine 0 (Some 0%nat) 1%float world_point =
  (Done (Some 1%nat, None),
   with_geometry 3 0
     (with_call (Call_GEOSBuffer_r (Some 1000%nat) (Some 1%nat) 1%float 8) world_point)).
Proof.
  assert (services world_point !! 0%nat = Some (mkService (Some 1000%nat) true))
    as Hs by (vm_compute; reflexivity).
  assert (context (mkService (Some 1000%nat) true) ≠ None) as Hctx by discriminate.
  assert (handle_at world_point (Some 0%nat) 1) as Hg.
  { exists 0%nat, (mkGeometry (Some 1%nat) (Some 0%nat) true).
    split_and!; [done | vm_compute; reflexivity | done]. }
  destruct (transform_outcomes demo_engine 0 _ world_point _ _ 1%nat 1%nat 1%float
              Hs Hctx Hg Hg) as (_ & Hbuf & _).
  rewrite Hbuf. vm_compute. reflexivity.
Defined.

(** * [Union] on a live service *)

Lemma union_loop_skip_all E s ctx nulls : ∀ result rest w,
  Forall (null_operand w) nulls →
  union_loop E s ctx result (nulls ++ rest) w = union_loop E s ctx result rest w.
Proof.
  induction nulls as [|g nulls IH]; intros result rest w Hall; [done|].
  apply Forall_cons in Hall as [Hg Hall]. cbn [app union_loop]. unfold bind.
  rewrite (nil_or_no_handle_null _ _ Hg). by apply IH.
Qed.

Lemma Union_enter E s sv w first rest :
  services w !! s = Some sv → context sv ≠ None → rest ≠ [] →
  Union E s (first :: rest) w = union_loop E s (context sv) first rest w.
Proof.
  intros Hs Hctx Hrest. unfold Union.
  rewrite (bool_decide_eq_false_2 (length (first :: rest) = 0%nat)) by done.
  rewrite (bool_decide_eq_false_2 (length (first :: rest) = 1%nat))
    by (destruct rest; simpl; [done | lia]).
  unfold bind. rewrite (load_service_Some _ _ _ Hs).
  rewrite bool_decide_eq_false_2 by done. simpl. by rewrite drop_0.
Qed.

(** X20. On a live service, when every entry after the first is [nil] or
    has no handle, [Union] of a list of two or more entries returns the first
    entry as it is, with no error and no library call, also when the first
    entry is itself [nil]. *)
Theorem Union_null_tail (E : Engine) (s : loc) (sv : Service) (w : World)
    (first : option loc) (rest : list (option loc)) :
  services w !! s = Some sv → context sv ≠ None →
  rest ≠ [] → Forall (null_operand w) rest →
  Union E s (first :: rest) w = (Done (first, None), w).
Proof.
  intros Hs Hctx Hrest Hall. rewrite (Union_enter E s sv) by done.
  rewrite <- (app_nil_r rest). by rewrite union_loop_skip_all.
Qed.

Lemma Union_null_tail_witness :
  Union demo_engine 0 [None; None] world_point = (Done (None, None), world_point).
Proof.
  apply (Union_null_tail demo_engine 0 (mkService (Some 1000%nat) true));
    [vm_compute; reflexivity | discriminate | discriminate |].
  repeat constructor; by left.
Defined.

(** X21. On a live service, [Union] of a list whose first entry is [nil]
    and which has, after any number of entries that are [nil] or without a
    handle, an entry with a handle, panics with a nil dereference; no
    library call has been made. *)
Theorem Union_nil_first_panics (E : Engine) (s : loc) (sv : Service) (w : World)
    (nulls more : list (option loc)) (g : option loc) :
  services w !! s = Some sv → context sv ≠ None →
  Forall (null_operand w) nulls → usable w g →
  Union E s (None :: nulls ++ g :: more) w = (Panic nil_dereference, w).
Proof.
  intros Hs Hctx Hnulls Hg.
  rewrite (Union_enter E s sv) by (done || by destruct nulls).
  rewrite union_loop_skip_all by done. cbn [union_loop]. unfold bind.
  by rewrite (nil_or_no_handle_usable _ _ Hg).
Qed.

Lemma Union_nil_first_panics_witness :
  Union demo_engine 0 [None; None; Some 0%nat] world_point =
  (Panic nil_dereference, world_point).
Proof.
  apply (Union_nil_first_panics demo_engine 0 (mkService (Some 1000%nat) true)
           world_point [None] [] (Some 0%nat)).
  - vm_compute. reflexivity.
  - discriminate.
  - repeat constructor.
  - exists 0%nat, (mkGeometry (Some 1%nat) (Some 0%nat) true).
    split_and!; [done | vm_compute; reflexivity | done].
Defined.

(** X22. On a live service, when the first entry is a stored geometry and
    exactly one other entry has a handle, the others being [nil] or without
    a handle, [Union] makes exactly one library call, on the handle field of
    the first entry and the handle of that other entry, and wraps the answer
    in a new geometry or reports "failed to create union". The handle field
    of the first entry is passed as it is: when the first entry has no
    handle the library is called with [NULL]. *)
Theorem Union_two_operands (E : Engine) (s : loc) (sv : Service) (w : World)
    (p : loc) (gv : Geometry) (b : option loc) (hb : nat)
    (between after : list (option loc)) :
  services w !! s = Some sv → context sv ≠ None →
  geometries w !! p = Some gv → handle_at w b hb →
  Forall (null_operand w) between → Forall (null_operand w) after →
  Union E s (Some p :: between ++ b :: after) w =
  transform_outcome s w (Call_GEOSUnion_r (context sv) (geom gv) (Some hb))
    (GEOSUnion_r E (calls w) (context sv) (geom gv) (Some hb))
    "failed to create union".
Proof.
  intros Hs Hctx Hp Hb Hbetween Hafter.
  rewrite (Union_enter E s sv) by (done || by destruct between).
  rewrite union_loop_skip_all by done. cbn [union_loop]. unfold bind.
  rewrite (nil_or_no_handle_usable _ _ (handle_at_usable _ _ _ Hb)).
  unfold handle_of at 1. unfold bind, ret.
  rewrite (load_geometry_Some _ _ _ Hp).
  rewrite (handle_of_handle_at _ _ _ Hb).
  unfold C_GEOSUnion_r, invoke, transform_outcome. simpl.
  destruct (GEOSUnion_r E (calls w) (context sv) (geom gv) (Some hb)) as [u|]; [|done].
  simpl. unfold bind, newGeometry, alloc_geometry, ret. simpl.
  rewrite <- (app_nil_r after). rewrite union_loop_skip_all; [done|].
  eapply Forall_impl; [done|]. intros g Hg.
  eapply null_operand_mono; [|done]. simpl.
  apply insert_subseteq, not_elem_of_dom, is_fresh.
Qed.

Lemma Union_two_operands_witness :
  calls (Union demo_engine 0 [Some 0%nat; Some 1%nat]
           (destroy 0 (Buffer demo_engine 0 (Some 0%nat) 1%float world_point).2).2).2 =
  calls (destroy 0 (Buffer demo_engine 0 (Some 0%nat) 1%float world_point).2).2
    ++ [Call_GEOSUnion_r (Some 1000%nat) None (Some 3%nat)].
Proof.
  set (w := (destroy 0 (Buffer demo_engine 0 (Some 0%nat) 1%float world_point).2).2).
  assert (services w !! 0%nat = Some (mkService (Some 1000%nat) true))
    as Hs by (vm_compute; reflexivity).
  assert (context (mkService (Some 1000%nat) true) ≠ None) as Hctx by discriminate.
  assert (geometries w !! 0%nat = Some (mkGeometry None (Some 0%nat) false))
    as Hp by (vm_compute; reflexivity).
  assert (handle_at w (Some 1%nat) 3) as Hb.
  { exists 1%nat, (mkGeometry (Some 3%nat) (Some 0%nat) true).
    split_and!; [done | vm_compute; reflexivity | done]. }
  pose proof (Union_two_operands demo_engine 0 _ w 0%nat _ (Some 1%nat) 3%nat [] []
                Hs Hctx Hp Hb (Forall_nil_2 _) (Forall_nil_2 _)) as Hrun.
  simpl in Hrun. rewrite Hrun. reflexivity.
Defined.

Lemma usable_mono w w' g :
  geometries w ⊆ geometries w' → usable w g → usable w' g.
Proof.
  intros Hsub (p & gv & -> & Hg & Hh). exists p, gv.
  split_and!; [done | by eapply lookup_weaken | done].
Qed.

Lemma union_loop_fold E s ctx rest :
  (∀ log a b, is_Some (GEOSUnion_r E log ctx a b)) →
  ∀ result w,
    usable w result → Forall (usable w) rest →
    ∃ p w',
      union_loop E s ctx result rest w = (Done (Some p, None), w')
      ∧ usable w' (Some p)
      ∧ geometries w ⊆ geometries w'
      ∧ size (geometries w') = (size (geometries w) + length rest)%nat
      ∧ ∃ new, calls w' = calls w ++ new ∧ length new = length rest
               ∧ Forall (union_call ctx) new.
Proof.
  intros Htotal. induction rest as [|gi rest IH]; intros result w Hres Hall.
  - destruct Hres as (p & gv & -> & Hg & Hh). exists p, w.
    split_and!; [done | by exists p, gv | done | simpl; lia |].
    exists []. by rewrite app_nil_r.
  - apply Forall_cons in Hall as [Hgi Hall]. cbn [union_loop]. unfold bind.
    rewrite (nil_or_no_handle_usable _ _ Hgi).
    destruct (handle_of_usable _ _ Hres) as [hr ->].
    destruct (handle_of_usable _ _ Hgi) as [hi ->].
    unfold C_GEOSUnion_r, invoke. simpl.
    destruct (Htotal (calls w) (Some hr) (Some hi)) as [u ->]. simpl.
    unfold bind, newGeometry, alloc_geometry, ret. simpl.
    set (p1 := fresh (dom (geometries w))).
    set (w1 := mkWorld _ _ _ _).
    assert (geometries w !! p1 = None) as Hfree by apply not_elem_of_dom, is_fresh.
    assert (geometries w ⊆ geometries w1) as Hsub by (by apply insert_subseteq).
    destruct (IH (Some p1) w1) as (p & w' & -> & Hp & Hsub' & Hsize & new & Hc & Hlen & Hnew).
    + exists p1, (mkGeometry (Some u) (Some s) true).
      split_and!; [done | apply lookup_insert_eq | done].
    + eapply Forall_impl; [done|]. intros g Hg. by eapply usable_mono.
    + exists p, w'. split_and!; [done | done | by etrans | |].
      * rewrite Hsize. subst w1. simpl.
        rewrite map_size_insert_None by done. lia.
      * exists (Call_GEOSUnion_r ctx (Some hr) (Some hi) :: new).
        split_and!; [| simpl; lia |].
        -- rewrite Hc. subst w1. simpl. by rewrite <- app_assoc.
        -- constructor; [by eexists _, _ | done].
Qed.

(** X23. On a live service whose library never fails a union, [Union] of
    n >= 2 stored geometries that all have handles returns a geometry with a
    handle after exactly n - 1 library calls, all of them [GEOSUnion_r] on
    the service's context; it stores n - 1 new geometries, one per call, and
    leaves every geometry stored before as it was. *)
Theorem Union_fold (E : Engine) (s : loc) (sv : Service) (w : World)
    (geometries0 : list (option loc)) :
  services w !! s = Some sv → context sv ≠ None →
  (∀ log a b, is_Some (GEOSUnion_r E log (context sv) a b)) →
  (2 ≤ length geometries0)%nat → Forall (usable w) geometries0 →
  ∃ p w',
    Union E s geometries0 w = (Done (Some p, None), w')
    ∧ usable w' (Some p)
    ∧ geometries w ⊆ geometries w'
    ∧ size (geometries w') = (size (geometries w) + (length geometries0 - 1))%nat
    ∧ ∃ new, calls w' = calls w ++ new
             ∧ length new = (length geometries0 - 1)%nat
             ∧ Forall (union_call (context sv)) new.
Proof.
  intros Hs Hctx Htotal Hlen Hall.
  destruct geometries0 as [|first rest]; [simpl in Hlen; lia|].
  apply Forall_cons in Hall as [Hfirst Hall].
  rewrite (Union_enter E s sv) by (done || (destruct rest; [simpl in Hlen; lia | done])).
  destruct (union_loop_fold E s (context sv) rest Htotal first w Hfirst Hall)
    as (p & w' & Hrun & Hp & Hsub & Hsize & new & Hc & Hn & Hnew).
  exists p, w'. simpl. rewrite Nat.sub_0_r.
  split_and!; [done..|]. by exists new.
Qed.

Lemma Union_fold_witness :
  ∃ p w', Union demo_engine 0 [Some 0%nat; Some 0%nat; Some 0%nat] world_point =
            (Done (Some p, None), w')
          ∧ size (geometries w') = 3%nat
          ∧ length (calls w') = (length (calls world_point) + 2)%nat.
Proof.
  assert (services world_point !! 0%nat = Some (mkService (Some 1000%nat) true))
    as Hs by (vm_compute; reflexivity).
  assert (context (mkService (Some 1000%nat) true) ≠ None) as Hctx by discriminate.
  assert (usable world_point (Some 0%nat)) as Hg.
  { exists 0%nat, (mkGeometry (Some 1%nat) (Some 0%nat) true).
    split_and!; [done | vm_compute; reflexivity | done]. }
  destruct (Union_fold demo_engine 0 _ world_point
              [Some 0%nat; Some 0%nat; Some 0%nat] Hs Hctx)
    as (p & w' & Hrun & _ & _ & Hsize & new & Hc & Hn & _).
  - intros log a b. simpl. eauto.
  - simpl. lia.
  - repeat constructor; exact Hg.
  - exists p, w'. split_and!; [done | |].
    + rewrite Hsize. vm_compute. reflexivity.
    + rewrite Hc, length_app, Hn. reflexivity.
Defined.

(** * Release and its composition with the operations *)

(** X24. After [destroy] has released a geometry of a live service, every
    operation rejects that geometry as an operand with "invalid geometry",
    and makes no library call, whatever the service it is called on, whatever
    its state and whatever the other operand. *)
Theorem released_geometry_rejected (g sp : loc) (gv : Geometry) (sv : Service)
    (h : nat) (w : World) :
  geometries w !! g = Some gv → geom gv = Some h → service gv = Some sp →
  services w !! sp = Some sv → context sv ≠ None →
  let w1 := (destroy g w).2 in
  null_operand w1 (Some g)
  ∧ ∀ E s b x,
      ToWKT E s (Some g) w1 = (Done ("", Some ErrInvalidGeometry), w1)
      ∧ Buffer E s (Some g) x w1 = (Done (None, Some ErrInvalidGeometry), w1)
      ∧ Simplify E s (Some g) x w1 = (Done (None, Some ErrInvalidGeometry), w1)
      ∧ Within E s (Some g) b w1 = (Done (false, Some ErrInvalidGeometry), w1)
      ∧ Intersects E s (Some g) b w1 = (Done (false, Some ErrInvalidGeometry), w1)
      ∧ Distance E s (Some g) b w1 = (Done (0%float, Some ErrInvalidGeometry), w1)
      ∧ Difference E s (Some g) b w1 = (Done (None, Some ErrInvalidGeometry), w1).
Proof.
  intros Hg Hh Hsp Hs Hctx w1.
  assert (geometries w1 !! g = Some (mkGeometry None (Some sp) false)) as Hg1.
  { subst w1. rewrite (destroy_live g gv h sp sv w) by done. simpl.
    apply lookup_insert_eq. }
  clearbody w1.
  assert (null_operand w1 (Some g)) as Hnull.
  { right. by eexists _, _. }
  split; [done|]. intros E s b x.
  assert (nil_or_no_handle2 (Some g) b w1 = (Done true, w1)) as Hbin.
  { unfold nil_or_no_handle2, bind, ret. destruct b; [|done].
    rewrite !bool_decide_eq_false_2 by done. simpl.
    by rewrite (load_geometry_Some _ _ _ Hg1). }
  unfold ToWKT, Buffer, Simplify, Within, Intersects, Distance, Difference, bind.
  by rewrite (nil_or_no_handle_null _ _ Hnull), Hbin.
Qed.

Lemma released_geometry_rejected_witness :
  ToWKT demo_engine 0 (Some 0%nat) (destroy 0 world_point).2 =
  (Done ("", Some ErrInvalidGeometry), (destroy 0 world_point).2).
Proof.
  assert (geometries world_point !! 0%nat = Some (mkGeometry (Some 1%nat) (Some 0%nat) true))
    as Hg by (vm_compute; reflexivity).
  assert (services world_point !! 0%nat = Some (mkService (Some 1000%nat) true))
    as Hs by (vm_compute; reflexivity).
  destruct (released_geometry_rejected 0 0 _ _ 1 world_point Hg eq_refl eq_refl Hs)
    as [_ Hops]; [discriminate|].
  apply (Hops demo_engine 0%nat None 0%float).
Defined.

(** X25. On a live service, a successful [ParseGeometry] followed by
    [destroy] of the geometry it returned makes exactly three library calls
    (parse, validity, destroy of the parsed handle on the same context),
    leaves the set of outstanding native handles as it was before the parse,
    and leaves a wrapper without handle and without finalizer. *)
Theorem parse_then_destroy (E : Engine) (s : loc) (sv : Service) (w : World)
    (input : GeometryInput) (wkt : string) (h : nat) :
  services w !! s = Some sv → context sv ≠ None →
  input_wkt input = (wkt, None) →
  GEOSGeomFromWKT_r E (calls w) (context sv) wkt = Some h →
  GEOSisValid_r E (calls w ++ [Call_GEOSGeomFromWKT_r (context sv) wkt])
                (context sv) (Some h) ≠ 0 →
  let g := next_geometry w in
  let w1 := (ParseGeometry E s input w).2 in
  (ParseGeometry E s input w).1 = Done (Some g, None)
  ∧ destroy g w1 =
    (Done (),
     mkWorld (services w)
             (<[g := mkGeometry None (Some s) false]> (geometries w))
             (calls w ++ [Call_GEOSGeomFromWKT_r (context sv) wkt;
                          Call_GEOSisValid_r (context sv) (Some h);
                          Call_GEOSGeom_destroy_r (context sv) (Some h)])
             (live w)).
Proof.
  intros Hs Hctx Hin Hparse Hvalid g w1. subst g w1.
  rewrite (live_ParseGeometry_success E s sv w Hs Hctx input wkt h Hin Hparse Hvalid).
  split; [done|]. simpl.
  erewrite destroy_live; [| simpl; apply lookup_insert_eq | done | done | done | done].
  simpl. rewrite insert_insert_eq, bool_decide_eq_true_2 by done.
  by rewrite <- !app_assoc.
Qed.

Lemma parse_then_destroy_witness :
  live (destroy 0 world_point).2 = live world_service
  ∧ calls (destroy 0 world_point).2 =
    calls world_service ++ [Call_GEOSGeomFromWKT_r (Some 1000%nat) "POINT(1 1)";
                            Call_GEOSisValid_r (Some 1000%nat) (Some 1%nat);
                            Call_GEOSGeom_destroy_r (Some 1000%nat) (Some 1%nat)].
Proof.
  assert (services world_service !! 0%nat = Some (mkService (Some 1000%nat) true))
    as Hs by (vm_compute; reflexivity).
  assert (context (mkService (Some 1000%nat) true) ≠ None) as Hctx by discriminate.
  destruct (parse_then_destroy demo_engine 0 _ world_service point_input
              "POINT(1 1)" 1%nat Hs Hctx) as [_ Hrun];
    [reflexivity | reflexivity | discriminate |].
  change (next_geometry world_service) with 0%nat in Hrun.
  change ((ParseGeometry demo_engine 0 point_input world_service).2)
    with world_point in Hrun.
  rewrite Hrun. done.
Defined.

(** ** Geometries of a closed service *)

Lemma destroy_dangling g gv h sp w :
  geometries w !! g = Some gv → geom gv = Some h → service gv = Some sp →
  services w !! sp = None → destroy g w = (Panic nil_dereference, w).
Proof.
  intros Hg Hh Hsp Hs. unfold destroy, bind.
  rewrite (load_geometry_Some _ _ _ Hg), Hh, Hsp.
  unfold load_service. by rewrite Hs.
Qed.

Lemma destroy_frame g w :
  services (destroy g w).2 = services w
  ∧ ∀ p, p ≠ g → geometries (destroy g w).2 !! p = geometries w !! p.
Proof.
  destruct (geometries w !! g) as [gv|] eqn:Hg; [|by rewrite destroy_missing].
  assert (destroy_guard_fails w gv →
          services (destroy g w).2 = services w
          ∧ ∀ p, p ≠ g → geometries (destroy g w).2 !! p = geometries w !! p) as Hskip.
  { intros Hfail. rewrite (destroy_skipped g gv w Hg Hfail). simpl.
    split; [done|]. intros p Hp. by rewrite lookup_insert_ne. }
  destruct (geom gv) as [h|] eqn:Hh; [|apply Hskip; by left].
  destruct (service gv) as [sp|] eqn:Hsp; [|apply Hskip; right; by left].
  destruct (services w !! sp) as [sv|] eqn:Hs;
    [|by rewrite (destroy_dangling g gv h sp w)].
  destruct (context sv) as [c|] eqn:Hc;
    [|apply Hskip; right; right; by exists sp, sv].
  rewrite (destroy_live g gv h sp sv w) by (done || by rewrite Hc). simpl.
  split; [done|]. intros p Hp. by rewrite lookup_insert_ne.
Qed.

Lemma footprint_stranded P s0 {A} (m : M A) s g h w :
  footprint P s0 m w → stranded s g h w → stranded s g h (m w).2.
Proof.
  intros (HS & Hold & _) [Hsv (gv & Hg & Hh & Hown)]. split; [by rewrite HS|].
  exists gv. split_and!; [by apply Hold | done..].
Qed.

Lemma api_step_stranded E s g h w w' :
  api_step E w w' → stranded s g h w → stranded s g h w'.
Proof.
  intros Hstep Hst. destruct Hstep.
  - destruct Hst as [(sv & Hs & Hc) Hg].
    destruct (NewService_cases E w) as [[_ ->] | (c & _ & Hfree & ->)];
      (split; [|done]); simpl; exists sv; split; try done.
    rewrite lookup_insert_ne; [done|]. intros Heq. congruence.
  - destruct Hst as [(sv & Hs & Hc) Hg].
    destruct (Close_cases s0 w) as [-> | (sv0 & Hs0 & ->)];
      [simpl; split; [by exists sv | done]|].
    split; [|done]. simpl. destruct (decide (s0 = s)) as [->|Hne].
    + eexists. by rewrite lookup_insert_eq.
    + exists sv. by rewrite lookup_insert_ne.
  - destruct Hst as [(sv & Hs & Hc) (gv & Hg & Hh & Hown)].
    destruct (destroy_frame g0 w) as [HS Hother].
    split; [rewrite HS; by exists sv|].
    destruct (decide (g = g0)) as [<-|Hne].
    + rewrite (destroy_skipped g gv w Hg) by (right; right; by exists s, sv).
      simpl. eexists. by rewrite lookup_insert_eq.
    + exists gv. by rewrite Hother.
  - by eapply footprint_stranded, Hst; apply footprint_ParseGeometry.
  - by eapply footprint_stranded, Hst; apply footprint_ToWKT.
  - by eapply footprint_stranded, Hst; apply footprint_Within.
  - by eapply footprint_stranded, Hst; apply footprint_Intersects.
  - by eapply footprint_stranded, Hst; apply footprint_Distance.
  - by eapply footprint_stranded, Hst; apply footprint_Buffer.
  - by eapply footprint_stranded, Hst; apply footprint_Simplify.
  - by eapply footprint_stranded, Hst; apply footprint_Union.
  - by eapply footprint_stranded, Hst; apply footprint_Difference.
Qed.

(** X26. A geometry that still has its handle when its service is closed
    keeps it: in every state the API can reach from there, whatever is
    called, the service has no context and the geometry has the same handle
    and the same owner, so [destroy] never gives the handle back to the
    library. *)
Theorem closed_service_keeps_handles (E : Engine) (s g : loc) (h : nat)
    (w w' : World) :
  stranded s g h w → later E w w' →
  stranded s g h w'
  ∧ calls (destroy g w').2 = calls w' ∧ live (destroy g w').2 = live w'.
Proof.
  intros Hst Hlater.
  assert (stranded s g h w') as Hst'.
  { induction Hlater as [|w1 w2 _ IH Hstep]; [done|]. by eapply api_step_stranded. }
  split; [done|].
  destruct Hst' as [(sv & Hs & Hc) (gv & Hg & Hh & Hown)].
  by rewrite (destroy_skipped g gv w' Hg) by (right; right; by exists s, sv).
Qed.

Lemma closed_service_keeps_handles_witness :
  stranded 0 0 1 (destroy 0 world_closed).2
  ∧ live (destroy 0 (destroy 0 world_closed).2).2 = [1%nat].
Proof.
  assert (stranded 0 0 1 world_closed) as Hst.
  { split.
    - exists (mkService None false). split; [vm_compute; reflexivity | done].
    - exists (mkGeometry (Some 1%nat) (Some 0%nat) true).
      split_and!; [vm_compute; reflexivity | done | done]. }
  assert (later demo_engine world_closed (destroy 0 world_closed).2) as Hlater.
  { eapply later_step; [apply later_now | apply step_destroy]. }
  destruct (closed_service_keeps_handles demo_engine 0 0 1 _ _ Hst Hlater)
    as (Hst' & _ & Hlive).
  split; [exact Hst'|]. rewrite Hlive. vm_compute. reflexivity.
Defined.

(** X27. For an input without text, [ParseGeometry] behaves exactly as on
    the text its GeoJSON object converts to: same result, same library
    calls, same final state. *)
Theorem ParseGeometry_geojson_as_text (E : Engine) (s : loc) (w : World)
    (input : GeometryInput) (wkt : string) :
  WKT input = "" → input_wkt input = (wkt, None) →
  ParseGeometry E s input w = ParseGeometry E s (mkGeometryInput wkt None 0) w.
Proof.
  intros Hempty Hin. unfold ParseGeometry. rewrite Hin.
  assert (input_wkt (mkGeometryInput wkt None 0) = (wkt, None)) as ->; [|done].
  unfold input_wkt. simpl.
  by rewrite bool_decide_eq_true_2 by (by eapply input_wkt_nonempty).
Qed.

Lemma ParseGeometry_geojson_as_text_witness :
  ParseGeometry demo_engine 0
    (mkGeometryInput ""
       (Some {["type" := VString "Point"; "coordinates" := pair_coord (1, 2)%float]}) 0)
    world_service =
  ParseGeometry demo_engine 0
    (mkGeometryInput "POINT(1.000000 2.000000)" None 0) world_service.
Proof.
  apply ParseGeometry_geojson_as_text; [reflexivity | vm_compute; reflexivity].
Defined.
